(** * pysisyphus: string optimizer, coordinate primitives, ZTS reparametrization
      and the calculator driver

    A shallow embedding of
    - [pysisyphus/optimizers/StringOptimizer.py],
    - [pysisyphus/intcoords/Primitive.py],
    - [cos/SimpleZTS.py],
    - [pysisyphus/calculators/Calculator.py].

    Numerical conventions.  Python floats and numpy [float64] arrays are
    idealised as real numbers ([R]) and lists of reals; IEEE special values
    (inf, nan) and rounding are outside the model.  Python integers are [Z].
    Exceptions are an explicit error type threaded through a small monad. *)

From Stdlib Require Import Reals Lra Lia ZArith String Ascii Bool List.
From Stdlib Require DecimalString DecimalN.
Import ListNotations.

Local Open Scope R_scope.

(** ** Python runtime: exceptions and sequence indexing *)

Module Py.

Inductive exn : Type :=
| IndexError
| ValueError
| KeyError
| TypeError
| AssertionError
| UnboundLocalError (name : string)
| OSError
| ParseError (msg : string)
| SystemExit.

Inductive result (A : Type) : Type :=
| Ok (a : A)
| Raise (e : exn).

Arguments Ok {A} a.
Arguments Raise {A} e.

Definition bind {A B : Type} (r : result A) (k : A -> result B) : result B :=
  match r with
  | Ok a => k a
  | Raise e => Raise e
  end.

Definition is_ok {A : Type} (r : result A) : bool :=
  match r with Ok _ => true | Raise _ => false end.

(** [seq[i]] for a Python integer [i]: negative indices count from the end,
    anything outside [-len, len) raises [IndexError]. *)
Definition index {A : Type} (l : list A) (i : Z) : result A :=
  let n := Z.of_nat (length l) in
  let j := (if i <? 0 then n + i else i)%Z in
  if ((0 <=? j) && (j <? n))%Z
  then match nth_error l (Z.to_nat j) with
       | Some a => Ok a
       | None => Raise IndexError
       end
  else Raise IndexError.

(** Built-in [min(a, b)]: returns [a] unless [b < a]. *)
Definition min (a b : R) : R := if Rlt_dec b a then b else a.

(** [range(a, b)] *)
Definition range (a b : nat) : list Z := map Z.of_nat (seq a (b - a)).

(** A list comprehension whose element expression may raise. *)
Fixpoint comprehension {A B : Type} (f : A -> result B) (l : list A)
  : result (list B) :=
  match l with
  | [] => Ok []
  | a :: l' =>
      match f a with
      | Ok b =>
          match comprehension f l' with
          | Ok bs => Ok (b :: bs)
          | Raise e => Raise e
          end
      | Raise e => Raise e
      end
  end.

(** A [for] loop threading the variables it updates. *)
Fixpoint for_each {S : Type} (body : Z -> S -> result S) (l : list Z) (s : S)
  : result S :=
  match l with
  | [] => Ok s
  | i :: l' =>
      match body i s with
      | Ok s' => for_each body l' s'
      | Raise e => Raise e
      end
  end.

End Py.

Notation "x <- c ;; k" := (Py.bind c (fun x => k))
  (at level 61, c at next level, right associativity).

(** ** numpy: one-dimensional arrays of floats *)

Module Np.

Definition vec := list R.

Definition Rgtb (a b : R) : bool := if Rgt_dec a b then true else false.
Definition Rltb (a b : R) : bool := if Rlt_dec a b then true else false.

(** [np.sign] *)
Definition sign (x : R) : R :=
  if Rlt_dec x 0 then -1 else if Rlt_dec 0 x then 1 else 0.

Definition sum (v : vec) : R := fold_right Rplus 0 v.

(** [np.linalg.norm] of a 1-d array *)
Definition norm (v : vec) : R := sqrt (sum (map (fun x => x * x) v)).

(** [a / s] and [s * a] for a scalar [s].  The quotient is that of the real
    numbers: it stands for numpy's only when [s] is not zero, where numpy
    yields [inf] or [nan]; statements about a quotient exclude a zero
    divisor. *)
Definition div_scalar (v : vec) (s : R) : vec := map (fun x => x / s) v.
Definition scale (s : R) (v : vec) : vec := map (fun x => s * x) v.

Fixpoint zip_with (f : R -> R -> R) (u v : vec) : vec :=
  match u, v with
  | x :: u', y :: v' => f x y :: zip_with f u' v'
  | _, _ => []
  end.

(** Element-wise binary operation with numpy's broadcasting rule for 1-d
    operands: equal lengths, or one operand of length one; any other pair of
    shapes raises [ValueError]. *)
Definition broadcast (f : R -> R -> R) (u v : vec) : Py.result vec :=
  if Nat.eqb (length u) (length v) then Py.Ok (zip_with f u v)
  else match u, v with
       | [x], _ => Py.Ok (map (fun y => f x y) v)
       | _, [y] => Py.Ok (map (fun x => f x y) u)
       | _, _ => Py.Raise Py.ValueError
       end.

Definition add : vec -> vec -> Py.result vec := broadcast Rplus.
Definition sub : vec -> vec -> Py.result vec := broadcast Rminus.

(** [u.dot(v)] for 1-d arrays: the shapes must agree exactly. *)
Definition dot (u v : vec) : Py.result R :=
  if Nat.eqb (length u) (length v) then Py.Ok (sum (zip_with Rmult u v))
  else Py.Raise Py.ValueError.

(** Boolean-mask selection [a[mask]] and assignment [a[mask] = vals]. *)
Fixpoint select (a : vec) (mask : list bool) : vec :=
  match a, mask with
  | x :: a', b :: mask' => if b then x :: select a' mask' else select a' mask'
  | _, _ => []
  end.

Fixpoint mask_assign (a : vec) (mask : list bool) (vals : vec) : vec :=
  match a, mask with
  | x :: a', true :: mask' =>
      match vals with
      | y :: vals' => y :: mask_assign a' mask' vals'
      | [] => x :: a'
      end
  | x :: a', false :: mask' => x :: mask_assign a' mask' vals
  | _, _ => a
  end.

(** [a.max()]: raises on an empty array. *)
Definition amax (v : vec) : Py.result R :=
  match v with
  | [] => Py.Raise Py.ValueError
  | x :: v' => Py.Ok (fold_left Rmax v' x)
  end.

(** Two-dimensional arrays are lists of rows.  [a.reshape(-1, ncols)] of a
    flat array, [a.transpose()] of an array with [ncols] columns, and
    [a.flatten()]. *)
Fixpoint rows_of (nrows ncols : nat) (flat : vec) : list vec :=
  match nrows with
  | O => []
  | S n => firstn ncols flat :: rows_of n ncols (skipn ncols flat)
  end.

Definition reshape (flat : vec) (ncols : nat) : Py.result (list vec) :=
  if Nat.eqb ncols 0 then Py.Raise Py.ValueError
  else if Nat.eqb (length flat mod ncols) 0
       then Py.Ok (rows_of (length flat / ncols) ncols flat)
       else Py.Raise Py.ValueError.

Definition transpose (ncols : nat) (a : list vec) : list vec :=
  map (fun j => map (fun row => nth j row 0) a) (seq 0 ncols).

Definition flatten (a : list vec) : vec := concat a.

(** [np.linspace(0, 1, num=n)] *)
Definition linspace01 (n : nat) : vec :=
  map (fun i => INR i / INR (n - 1)) (seq 0 n).

End Np.

(** ** StringOptimizer *)

Module StringOptimizer.

Import Py Np.

(** What the optimizer reads from its chain-of-states geometry. *)
Record geometry : Type := {
  coords : vec;
  forces : vec;
  energy : R;
  fully_grown : bool;
  coord_type : string;
  is_cos : bool
}.

(** The optimizer object: the attributes set in [__init__] together with the
    cycle counter and the per-cycle histories kept by the [Optimizer] base. *)
Record optimizer : Type := {
  gamma : R;
  max_step : R;
  stop_in_when_full : Z;
  stop_in : Z;
  is_cart_opt : bool;
  align : bool;
  cur_cycle : Z;
  coords_hist : list vec;
  energies_hist : list R;
  forces_hist : list vec;
  steps_hist : list vec
}.

Definition set_stop_in (st : optimizer) (n : Z) : optimizer :=
  {| gamma := gamma st; max_step := max_step st;
     stop_in_when_full := stop_in_when_full st; stop_in := n;
     is_cart_opt := is_cart_opt st; align := align st;
     cur_cycle := cur_cycle st; coords_hist := coords_hist st;
     energies_hist := energies_hist st; forces_hist := forces_hist st;
     steps_hist := steps_hist st |}.

Definition record_forces (st : optimizer) (e : R) (f : vec) : optimizer :=
  {| gamma := gamma st; max_step := max_step st;
     stop_in_when_full := stop_in_when_full st; stop_in := stop_in st;
     is_cart_opt := is_cart_opt st; align := align st;
     cur_cycle := cur_cycle st; coords_hist := coords_hist st;
     energies_hist := energies_hist st ++ [e];
     forces_hist := forces_hist st ++ [f];
     steps_hist := steps_hist st |}.

(** [__init__]: the base class starts at cycle 0 with empty histories; the
    assertion rejects anything that is not a chain of states. *)
Definition init (g : geometry) (gamma0 max_step0 : R) (stop_in_when_full0 : Z)
  (align0 : bool) : result optimizer :=
  if is_cos g then
    Ok {| gamma := gamma0; max_step := max_step0;
          stop_in_when_full := stop_in_when_full0;
          stop_in := stop_in_when_full0 + 1;
          is_cart_opt := String.eqb (coord_type g) "cart";
          align := align0;
          cur_cycle := 0;
          coords_hist := []; energies_hist := [];
          forces_hist := []; steps_hist := [] |}
  else Raise AssertionError.

Definition default_gamma : R := 125 / 100.
Definition default_max_step : R := 1 / 10.
Definition default_stop_in_when_full : Z := (-1)%Z.

(** [restrict_step_components] *)
Definition restrict_step_components (max_step0 : R) (steps : vec) : vec :=
  let too_big := map (fun x => Rgtb (Rabs x) max_step0) steps in
  let signs := map sign (select steps too_big) in
  mask_assign steps too_big (map (fun s => s * max_step0) signs).

(** [check_convergence]; [converged] is the verdict of the generic check of
    the base class. *)
Definition count_down (st : optimizer) (g : geometry) : optimizer :=
  if fully_grown g then set_stop_in st (stop_in st - 1) else st.

Definition full_stop (st : optimizer) (g : geometry) : bool :=
  fully_grown g && (stop_in (count_down st g) =? 0)%Z.

Definition check_convergence (st : optimizer) (g : geometry) (converged : bool)
  : bool * optimizer :=
  (full_stop st g || converged, count_down st g).

(** Successive cycles: [check_convergence] is called once per cycle with the
    geometry of that cycle and the verdict of the generic check; the trace
    pairs [full_stop] with the value returned. *)
Fixpoint run_checks (st : optimizer) (cycles : list (geometry * bool))
  : list (bool * bool) :=
  match cycles with
  | [] => []
  | (g, converged) :: rest =>
      (full_stop st g, fst (check_convergence st g converged))
        :: run_checks (snd (check_convergence st g converged)) rest
  end.

(** The clipping rule in the words of the specification. *)
Definition clamp (max_step0 x : R) : R :=
  if Rgt_dec (Rabs x) max_step0 then sign x * max_step0 else x.

Section Optimize.

(** [pysisyphus.helpers.procrustes]: rigid superposition of the images. *)
Variable procrustes : geometry -> geometry.

Definition string_size_changed (st : optimizer) (g : geometry) : bool :=
  match index (coords_hist st) (-2) with
  | Ok prev => negb (Nat.eqb (length (coords g)) (length prev))
  | Raise _ => true
  end.

Definition aligned (st : optimizer) (g : geometry) : geometry :=
  if align st && string_size_changed st g && is_cart_opt st
  then procrustes g else g.

(** The step before [restrict_step_components] is applied, together with the
    optimizer after the energy and the forces have been recorded.  The two
    quotients, by [gamma] and by the squared norm of the previous forces,
    stand for the code's when the divisor is not zero. *)
Definition unrestricted_step (st : optimizer) (g : geometry)
  : result (vec * optimizer) :=
  let changed := string_size_changed st g in
  let g1 := aligned st g in
  let f := forces g1 in
  let st1 := record_forces st (energy g1) f in
  let sd_step := div_scalar f (gamma st1) in
  if (cur_cycle st1 =? 0)%Z || changed then Ok (sd_step, st1)
  else
    let cur_norm := norm f in
    prev_forces <- index (forces_hist st1) (-2) ;;
    let prev_norm := norm prev_forces in
    let quot := Py.min (cur_norm ^ 2 / prev_norm ^ 2) 1 in
    prev_step <- index (steps_hist st1) (-1) ;;
    step <- add sd_step (scale quot prev_step) ;;
    Ok (step, st1).

Definition optimize (st : optimizer) (g : geometry) : result (vec * optimizer) :=
  r <- unrestricted_step st g ;;
  Ok (restrict_step_components (max_step st) (fst r), snd r).

End Optimize.

End StringOptimizer.

(** ** Primitive *)

Module Primitive.

Import Py Np.

Definition default_thresh : R := 1 / 1000000.

(** [Primitive.parallel] *)
Definition parallel (u v : vec) (thresh : R) : result bool :=
  uv <- dot u v ;;
  let dot := uv / (norm u * norm v) in
  Ok (Rltb (1 - Rabs dot) thresh).

(** [str.lower] on ASCII text. *)
Definition lower_ascii (c : ascii) : ascii :=
  let n := nat_of_ascii c in
  if (Nat.leb 65 n && Nat.leb n 90)%bool then ascii_of_nat (n + 32) else c.

Fixpoint lower (s : string) : string :=
  match s with
  | EmptyString => EmptyString
  | String c s' => String (lower_ascii c) (lower s')
  end.

Section Rho.

(** [pysisyphus.elem_data.COVALENT_RADII]: a dictionary from element symbols
    to radii. *)
Variable CR : string -> option R.

Definition CR_getitem (key : string) : result R :=
  match CR key with
  | Some r => Ok r
  | None => Raise KeyError
  end.

(** [Primitive.rho]; [coords3d] is the array of atom positions, one row per
    atom. *)
Definition rho (atoms : list string) (coords3d : list vec) (indices : list Z)
  : result R :=
  match indices with
  | [i; j] =>
      ci <- index coords3d i ;;
      cj <- index coords3d j ;;
      d <- sub ci cj ;;
      let distance := norm d in
      ai <- index atoms i ;;
      ri <- CR_getitem (lower ai) ;;
      aj <- index atoms j ;;
      rj <- CR_getitem (lower aj) ;;
      let cov_rad_sum := ri + rj in
      Ok (exp (- (distance / cov_rad_sum - 1)))
  | _ => Raise ValueError
  end.

End Rho.

End Primitive.

(** ** Calculator *)

Module Calculator.

Import Py.

Record calculator : Type := {
  name : string;
  base_cmd : string;
  inp_fn : string;
  out_fn : string;
  calc_counter : Z
}.

Definition set_calc_counter (c : calculator) (n : Z) : calculator :=
  {| name := name c; base_cmd := base_cmd c; inp_fn := inp_fn c;
     out_fn := out_fn c; calc_counter := n |}.

(** The part of the machine [run] acts on: directories, each a list of named
    files (the scratch directories and the backups of crashed runs in the
    working directory), and what was printed. *)
Definition directory : Type := list (string * string).

Record world : Type := {
  scratch : list (string * directory);
  crashed : list (string * directory);
  stdout : list string
}.

(** The collaborators of one call: the external program (its exit status and
    what it wrote to standard output, or [OSError] when it cannot be started),
    the parser registered for each kind of calculation, and the text printed
    for an exception. *)
Record collaborators (results : Type) : Type := {
  program : list string -> directory -> result (Z * string);
  parser_funcs : string -> option (directory -> result results);
  exn_text : exn -> string
}.

Arguments program {results} _ _ _.
Arguments parser_funcs {results} _ _.
Arguments exn_text {results} _ _.

Section Run.

Context {results : Type}.
Variable ext : collaborators results.

(** [tempfile.mkdtemp(prefix=...)]: a fresh directory for the calculator of
    the given name and counter. *)
Variable mkdtemp : world -> string -> Z -> string.

Definition write_file (path fn content : string)
  (dirs : list (string * directory)) : list (string * directory) :=
  map (fun d => if String.eqb (fst d) path
                then (fst d, (fn, content)
                             :: filter (fun f => negb (String.eqb (fst f) fn))
                                  (snd d))
                else d) dirs.

Definition read_dir (path : string) (dirs : list (string * directory))
  : directory :=
  match find (fun d => String.eqb (fst d) path) dirs with
  | Some d => snd d
  | None => []
  end.

Definition rmtree (path : string) (dirs : list (string * directory))
  : list (string * directory) :=
  filter (fun d => negb (String.eqb (fst d) path)) dirs.

(** [prepare] *)
Definition prepare (c : calculator) (w : world) (inp : string) : string * world :=
  let path := mkdtemp w (name c) (calc_counter c) in
  (path, {| scratch := write_file path (inp_fn c) inp ((path, []) :: scratch w);
            crashed := crashed w; stdout := stdout w |}).

(** [clean] *)
Definition clean (w : world) (path : string) : world :=
  {| scratch := rmtree path (scratch w);
     crashed := crashed w; stdout := stdout w |}.

(** The body of the [try] block: [run_after] does nothing, the parser is
    looked up and applied to the directory, [keep] has nothing to keep. *)
Definition parse_output (calc : string) (dir : directory) : result results :=
  match parser_funcs ext calc with
  | Some parse => parse dir
  | None => Raise KeyError
  end.

(** The [except Exception] handler up to [sys.exit()]. *)
Definition crash_handler (c : calculator) (w : world) (path inp : string)
  (err : exn) : world :=
  let backup_dir := ("crashed_" ++ name c)%string in
  {| scratch := scratch w;
     crashed := (backup_dir, read_dir path (scratch w))
                :: rmtree backup_dir (crashed w);
     stdout := stdout w ++ [exn_text ext err; ""%string;
                            "Crashed input:"%string; inp] |}.

(** [Calculator.run].  The returned calculator and world are the state in
    which the call leaves them, whether it returns or raises. *)
Definition run (c : calculator) (w : world) (inp calc : string)
  (add_args : list string) : result results * calculator * world :=
  let '(path, w1) := prepare c w inp in
  let args := (base_cmd c :: inp_fn c :: add_args) in
  let w2 := {| scratch := write_file path (out_fn c) "" (scratch w1);
               crashed := crashed w1; stdout := stdout w1 |} in
  match program ext args (read_dir path (scratch w2)) with
  | Raise e => (Raise e, c, w2)
  | Ok (status, output) =>
      let w3 := {| scratch := write_file path (out_fn c) output (scratch w2);
                   crashed := crashed w2; stdout := stdout w2 |} in
      let finally (w' : world) :=
        (set_calc_counter c (calc_counter c + 1), clean w' path) in
      match parse_output calc (read_dir path (scratch w3)) with
      | Ok res =>
          let '(c2, w4) := finally w3 in (Ok res, c2, w4)
      | Raise err =>
          let '(c2, w4) := finally (crash_handler c w3 path inp err) in
          (Raise SystemExit, c2, w4)
      end
  end.

End Run.

End Calculator.

(** ** SimpleZTS *)

Module SimpleZTS.

Import Py Np.

(** An image is identified with its coordinate vector; the chain keeps the
    parametrization mode next to its images. *)
Record chain : Type := {
  param : string;
  images : list vec
}.

(** Modelled from the spec: the [ChainOfStates] base class is not part of the
    sources at hand.  Its constructor keeps the images; [coords] is the
    flattened view concatenating the coordinates of all images in order;
    [coords_length] is the number of scalar coordinates per image; assigning
    [coords] hands each image its slice of the flat vector. *)
Definition ChainOfStates_init (imgs : list vec) (z : chain) : chain :=
  {| param := param z; images := imgs |}.

Definition coords (z : chain) : vec := flatten (images z).

Definition coords_length (z : chain) : nat :=
  match images z with
  | [] => O
  | img :: _ => length img
  end.

Definition set_coords (z : chain) (v : vec) : result chain :=
  per_image <- reshape v (coords_length z) ;;
  if Nat.eqb (length (images z)) (length per_image)
  then Ok {| param := param z; images := per_image |}
  else Raise AssertionError.

(** [SimpleZTS.__init__] *)
Definition init (imgs : list vec) (param0 : string) : result chain :=
  let self := {| param := param0; images := [] |} in
  Ok (ChainOfStates_init imgs self).

Definition default_param : string := "equal".

Section Reparametrize.

(** [img.energy]: the energy the calculator of an image reports for its
    coordinates. *)
Variable energy : vec -> R.

(** [scipy.interpolate.splprep(x, u=..., s=0)] and [splev(mesh, tck)]. *)
Variable tck : Type.
Variable splprep : list vec -> option vec -> result (tck * vec).
Variable splev : vec -> tck -> list vec.

(** [weight_function]; the quotient by the largest absolute mean energy
    stands for the code's when that maximum is not zero. *)
Definition weight_function (mean_energies : vec) : result vec :=
  let mean_energies := map Rabs mean_energies in
  m <- amax mean_energies ;;
  let weights := div_scalar mean_energies m in
  Ok (map sqrt weights).

Definition mean_energies (z : chain) : result vec :=
  let energies := map energy (images z) in
  comprehension
    (fun i => ei <- index energies i ;;
              ej <- index energies (i - 1) ;;
              Ok ((ei + ej) / 2))
    (range 1 (length (images z))).

(** The loop accumulating [arc_segments], before the division by the
    maximum. *)
Definition arc_body (z : chain) (weights : vec) (i : Z) (arc_segments : vec)
  : result vec :=
  a <- index (images z) i ;;
  b <- index (images z) (i - 1) ;;
  d <- sub a b ;;
  let coord_diff := norm d in
  prev <- index arc_segments (-1) ;;
  w <- index weights (i - 1) ;;
  let next_segment := prev + w * coord_diff in
  Ok (arc_segments ++ [next_segment]).

Definition arc_loop (z : chain) (weights : vec) : result vec :=
  for_each (arc_body z weights) (range 1 (length (images z))) [0].

(** [arc_segments] after the division by its maximum, which stands for the
    code's when the maximum is not zero. *)
Definition arc_segments (z : chain) : result vec :=
  me <- mean_energies z ;;
  weights <- weight_function me ;;
  arc <- arc_loop z weights ;;
  m <- amax arc ;;
  Ok (div_scalar arc m).

(** The branch on [self.param]; [None] stands for [tck] being left
    unassigned. *)
Definition fit (z : chain) (transp_coords : list vec) : result (option tck) :=
  if String.eqb (param z) "energy" then
    u <- arc_segments z ;;
    r <- splprep transp_coords (Some u) ;;
    Ok (Some (fst r))
  else if String.eqb (param z) "equal" then
    r <- splprep transp_coords None ;;
    Ok (Some (fst r))
  else Ok None.

(** [SimpleZTS.reparametrize] *)
Definition reparametrize (z : chain) : result chain :=
  reshaped <- reshape (coords z) (coords_length z) ;;
  let transp_coords := transpose (coords_length z) reshaped in
  fitted <- fit z transp_coords ;;
  let uniform_mesh := linspace01 (length (images z)) in
  match fitted with
  | None => Raise (UnboundLocalError "tck")
  | Some t =>
      let new_points := splev uniform_mesh t in
      set_coords z (flatten (transpose (length uniform_mesh) new_points))
  end.

End Reparametrize.

End SimpleZTS.

(** ** StringOptimizer: the remaining methods *)

Module StringOptimizerSetup.

Import Py Np StringOptimizer.

(** [prepare_opt] *)
Definition prepare_opt (procrustes : geometry -> geometry) (st : optimizer)
  (g : geometry) : geometry :=
  if align st && is_cart_opt st then procrustes g else g.

(** [reset] *)
Definition reset (st : optimizer) : optimizer := st.

End StringOptimizerSetup.

(** ** Calculator: construction, file names and successive runs *)

Module CalculatorSetup.

Import Py Calculator.

Local Open Scope string_scope.

(** Decimal text of integers: [str(n)] and the format [{n:03d}], zero-padded
    to three characters, the sign included. *)
Fixpoint zeros (n : nat) : string :=
  match n with
  | O => ""
  | S n' => String "0" (zeros n')
  end.

Definition zfill (width : nat) (s : string) : string :=
  zeros (width - String.length s) ++ s.

Definition decimal (n : N) : string :=
  DecimalString.NilEmpty.string_of_uint (N.to_uint n).

Definition str_int (n : Z) : string :=
  if (n <? 0)%Z then "-" ++ decimal (Z.abs_N n) else decimal (Z.abs_N n).

Definition format_03d (n : Z) : string :=
  if (n <? 0)%Z then "-" ++ zfill 2 (decimal (Z.abs_N n))
  else zfill 3 (decimal (Z.abs_N n)).

(** The truth value of an optional integer argument: [None] and 0 are
    false. *)
Definition truthy (x : option Z) : bool :=
  match x with
  | Some n => negb (n =? 0)%Z
  | None => false
  end.

(** The attributes of a calculator that [run] does not use. *)
Record attributes : Type := {
  charge : Z;
  mult : Z;
  calc_number : Z;
  base_name : string;
  to_keep : list string
}.

(** [reattach].  The class body defines it twice; the second definition,
    which sets the counter, is the one bound when the class is complete. *)
Definition reattach (c : calculator) (calc_counter0 : Z) : calculator :=
  set_calc_counter c calc_counter0.

(** [__init__]; [base_cmd0] stands for the command a derived class sets. *)
Definition init (base_cmd0 : string) (calc_number0 charge0 mult0 : Z)
  (base_name0 : string) (last_calc_cycle : option Z)
  : calculator * attributes :=
  let c0 := {| name := base_name0 ++ "_" ++ str_int calc_number0;
               base_cmd := base_cmd0;
               inp_fn := "calc.inp"; out_fn := "calc.out";
               calc_counter := 0 |} in
  let c1 := if truthy last_calc_cycle
            then match last_calc_cycle with
                 | Some n => reattach (set_calc_counter c0 (n + 1)) n
                 | None => c0
                 end
            else c0 in
  (c1, {| charge := charge0; mult := mult0; calc_number := calc_number0;
          base_name := base_name0; to_keep := [] |}).

(** [make_fn]; [abspath_of] is [os.path.abspath]. *)
Definition make_fn (abspath_of : string -> string) (c : calculator)
  (ext : string) (counter : option Z) (abspath : bool) : string :=
  let counter := if truthy counter
                 then match counter with Some n => n | None => 0%Z end
                 else calc_counter c in
  let fn := name c ++ "." ++ format_03d counter ++ "." ++ ext in
  if abspath then abspath_of fn else fn.

Section Runs.

Context {results : Type}.
Variable ext : collaborators results.
Variable mkdtemp : world -> string -> Z -> string.

(** Successive calls of [run] on one calculator, up to the first that
    raises. *)
Fixpoint run_all (c : calculator) (w : world)
  (calls : list (string * string * list string))
  : result (list results) * calculator * world :=
  match calls with
  | [] => (Ok [], c, w)
  | (inp, calc, add_args) :: rest =>
      match run ext mkdtemp c w inp calc add_args with
      | (Ok res, c', w') =>
          match run_all c' w' rest with
          | (Ok ress, c'', w'') => (Ok (res :: ress), c'', w'')
          | (Raise e, c'', w'') => (Raise e, c'', w'')
          end
      | (Raise e, c', w') => (Raise e, c', w')
      end
  end.

End Runs.

End CalculatorSetup.

(** ** Calculator: keeping files of a finished calculation *)

Module CalculatorKeep.

Import Py Calculator CalculatorSetup.

Local Open Scope string_scope.

Section Keep.

(** [os.path.abspath] and [Path.glob]: the names of the files of a
    directory that match a pattern. *)
Variable abspath_of : string -> string.
Variable glob : directory -> string -> list string.

(** A dictionary from extensions to file names, and writing a file. *)
Definition dict_get (key : string) (d : list (string * string))
  : option string :=
  match find (fun e => String.eqb (fst e) key) d with
  | Some e => Some (snd e)
  | None => None
  end.

Fixpoint dict_set (key v : string) (d : list (string * string))
  : list (string * string) :=
  match d with
  | [] => [(key, v)]
  | (k, v') :: d' =>
      if String.eqb k key then (k, v) :: d' else (k, v') :: dict_set key v d'
  end.

(** [shutil.copy(old_fn, new_fn)] from the scratch directory into the files
    of the working directory. *)
Definition copy (dir : directory) (old_fn new_fn : string) (files : directory)
  : result directory :=
  match dict_get old_fn dir with
  | Some content => Ok (dict_set new_fn content files)
  | None => Raise OSError
  end.

(** The body of the loop of [keep] and the loop; the files written so far
    stay written when an assertion fails. *)
Fixpoint keep_loop (c : calculator) (dir : directory) (exts : list string)
  (kept_fns : list (string * string)) (files : directory)
  : result (list (string * string)) * directory :=
  match exts with
  | [] => (Ok kept_fns, files)
  | ext :: exts' =>
      let pattern := "*" ++ ext in
      let globbed := glob dir pattern in
      if Nat.leb (length globbed) 1 then
        match globbed with
        | [] => keep_loop c dir exts' kept_fns files
        | old_fn :: _ =>
            let new_fn := abspath_of (make_fn abspath_of c ext None false) in
            match copy dir old_fn new_fn files with
            | Ok files' =>
                keep_loop c dir exts' (dict_set ext new_fn kept_fns) files'
            | Raise e => (Raise e, files)
            end
        end
      else (Raise AssertionError, files)
  end.

(** [keep] *)
Definition keep (c : calculator) (to_keep0 : list string) (dir : directory)
  (files : directory) : result (list (string * string)) * directory :=
  keep_loop c dir to_keep0 [] files.

End Keep.

End CalculatorKeep.

(** ** testing: the cached availability marks *)

Module Testing.

Import Py.

Local Open Scope string_scope.

(** [pytest.mark.skipif(condition, reason=...)] *)
Record mark : Type := {
  skip : bool;
  reason : string
}.

(** What [using] consults: [pysisyphus.config.Config], a dictionary of
    sections, each a dictionary of options; [shutil.which]; and whether
    [import pyscf] succeeds. *)
Record environment : Type := {
  Config : string -> option (string -> option string);
  which : string -> option string;
  pyscf_importable : bool
}.

(** [_using_cache], most recent entry first. *)
Definition cache : Type := list (string * mark).

Definition cache_get (key : string) (c : cache) : option mark :=
  match find (fun e => String.eqb (fst e) key) c with
  | Some e => Some (snd e)
  | None => None
  end.

(** [Config[calculator]["cmd"]] followed by [bool(shutil.which(cmd))]; both
    look-ups raise [KeyError] on a missing key. *)
Definition command_found (env : environment) (calculator : string)
  : result bool :=
  match Config env calculator with
  | None => Raise KeyError
  | Some section =>
      match section "cmd" with
      | None => Raise KeyError
      | Some cmd =>
          Ok (match which env cmd with Some _ => true | None => false end)
      end
  end.

(** [using] *)
Definition using_ (env : environment) (c : cache) (calculator : string)
  : mark * cache :=
  let calculator := Primitive.lower calculator in
  match cache_get calculator c with
  | Some m => (m, c)
  | None =>
      let available :=
        match command_found env calculator with
        | Ok found => found
        | Raise _ => false
        end in
      let available :=
        if String.eqb calculator "pyscf"
        then (if pyscf_importable env then true else available)
        else available in
      let reason := "Calculator " ++ calculator ++ " is not available." in
      let m := {| skip := negb available; reason := reason |} in
      (m, (calculator, m) :: c)
  end.

End Testing.

(** ** run: calculator closures and the optimizer registry *)

Module Run.

Import Py.

Local Open Scope string_scope.

(** [value.replace("$IMAGE", new)]: every occurrence, from the left, without
    overlap.  [skip] counts the characters of a match still to be dropped. *)
Fixpoint replace_from (skip : nat) (pattern new s : string) : string :=
  match s with
  | "" => ""
  | String ch s' =>
      match skip with
      | S k => replace_from k pattern new s'
      | O =>
          if String.prefix pattern s && negb (String.eqb pattern "")
          then new ++ replace_from (String.length pattern - 1) pattern new s'
          else String ch (replace_from 0 pattern new s')
      end
  end.

Definition replace_IMAGE (new s : string) : string :=
  replace_from 0 "$IMAGE" new s.

(** [pattern in s] *)
Fixpoint contains (pattern s : string) : bool :=
  String.prefix pattern s
  || match s with
     | "" => false
     | String _ s' => contains pattern s'
     end.

Section Closure.

(** Values of keyword arguments: strings, integers and everything else. *)
Variable other : Type.

Inductive value : Type :=
| VStr (s : string)
| VInt (n : Z)
| VOther (o : other).

Definition kwargs : Type := list (string * value).

(** [d[key]] and [d[key] = v] on a dictionary kept in insertion order. *)
Definition getitem (key : string) (d : kwargs) : option value :=
  match find (fun e => String.eqb (fst e) key) d with
  | Some e => Some (snd e)
  | None => None
  end.

Fixpoint setitem (key : string) (v : value) (d : kwargs) : kwargs :=
  match d with
  | [] => [(key, v)]
  | (k, v') :: d' =>
      if String.eqb k key then (k, v) :: d' else (k, v') :: setitem key v d'
  end.

(** The calculator classes, by key: [CALC_DICT[calc_key]], called with the
    keyword arguments. *)
Variable calculator : Type.
Variable CALC_DICT : string -> option (kwargs -> result calculator).

(** The loop over the copied keyword arguments. *)
Definition expand (index : Z) (v : value) : value :=
  match v with
  | VStr s =>
      if negb (contains "$IMAGE" s) then VStr s
      else VStr (replace_IMAGE (CalculatorSetup.format_03d index) s)
  | _ => v
  end.

(** [calc_getter], the closure [get_calc_closure] returns; [index] is its
    counter before the call, the second component the counter after it. *)
Definition calc_getter (base_name calc_key : string) (calc_kwargs : kwargs)
  (index : Z) : result calculator * Z :=
  let kwargs_copy := map (fun e => (fst e, expand index (snd e))) calc_kwargs in
  let kwargs_copy := setitem "base_name" (VStr base_name) kwargs_copy in
  let kwargs_copy := setitem "calc_number" (VInt index) kwargs_copy in
  let index' := (index + 1)%Z in
  match CALC_DICT calc_key with
  | Some cls => (cls kwargs_copy, index')
  | None => (Raise KeyError, index')
  end.

End Closure.

(** The optimizer classes registered in [OPT_DICT] and [TSOPT_DICT]. *)
Inductive optimizer_class : Type :=
| ConjugateGradient | BFGS | FIRE | LBFGS | NCOptimizer | ONIOMOpt
| PreconLBFGS | PreconSteepestDescent | QuickMin | RFOptimizer
| SteepestDescent | StabilizedQNMethod | StringOptimizer
| dimer_method | RSPRFOptimizer | TRIM | RSIRFOptimizer.

Definition OPT_DICT : list (string * optimizer_class) :=
  [("cg", ConjugateGradient); ("bfgs", BFGS); ("fire", FIRE);
   ("lbfgs", LBFGS); ("nc", NCOptimizer); ("oniom", ONIOMOpt);
   ("plbfgs", PreconLBFGS); ("psd", PreconSteepestDescent);
   ("qm", QuickMin); ("rfo", RFOptimizer); ("sd", SteepestDescent);
   ("sqnm", StabilizedQNMethod); ("string", StringOptimizer)].

Definition TSOPT_DICT : list (string * optimizer_class) :=
  [("dimer", dimer_method); ("rsprfo", RSPRFOptimizer); ("trim", TRIM);
   ("rsirfo", RSIRFOptimizer)].

Definition lookup (key : string) (d : list (string * optimizer_class))
  : result optimizer_class :=
  match find (fun e => String.eqb (fst e) key) d with
  | Some e => Ok (snd e)
  | None => Raise KeyError
  end.

(** [get_opt_cls] *)
Definition get_opt_cls (opt_key : string) : result optimizer_class :=
  match lookup opt_key OPT_DICT with
  | Ok opt_cls => Ok opt_cls
  | Raise KeyError => lookup opt_key TSOPT_DICT
  | Raise e => Raise e
  end.

End Run.

(** * Properties *)

(** ** Sequence indexing *)

Module PyFacts.

Import Py.

Ltac in_bounds :=
  apply andb_true_iff; split; [apply Z.leb_le | apply Z.ltb_lt]; lia.

Ltac out_of_bounds :=
  apply andb_false_iff;
  first [left; apply Z.leb_gt; lia | right; apply Z.ltb_ge; lia].

Lemma index_nat {A : Type} (l : list A) (i : nat) (a : A) :
  nth_error l i = Some a -> index l (Z.of_nat i) = Ok a.
Proof.
  intros H. unfold index.
  assert (Hi : (i < length l)%nat) by (apply nth_error_Some; congruence).
  destruct (Z.of_nat i <? 0)%Z eqn:E; [lia|].
  replace ((0 <=? Z.of_nat i)%Z && (Z.of_nat i <? Z.of_nat (length l))%Z)
    with true by (symmetry; in_bounds).
  rewrite Nat2Z.id, H. reflexivity.
Qed.

Lemma index_last {A : Type} (l : list A) (a : A) :
  index (l ++ [a]) (-1) = Ok a.
Proof.
  unfold index. rewrite length_app. simpl length.
  change (-1 <? 0)%Z with true. cbv iota.
  replace (Z.of_nat (length l + 1) + -1)%Z with (Z.of_nat (length l)) by lia.
  replace ((0 <=? Z.of_nat (length l))%Z
           && (Z.of_nat (length l) <? Z.of_nat (length l + 1))%Z)
    with true by (symmetry; in_bounds).
  rewrite Nat2Z.id, nth_error_app2 by lia.
  rewrite Nat.sub_diag. reflexivity.
Qed.

Lemma index_before_last {A : Type} (l : list A) (a : A) :
  index (l ++ [a]) (-2) = index l (-1).
Proof.
  unfold index. rewrite length_app. simpl length.
  change (-2 <? 0)%Z with true. change (-1 <? 0)%Z with true. cbv iota.
  destruct l as [|b l'] using rev_ind.
  - reflexivity.
  - clear IHl'. rewrite !length_app. simpl length.
    replace (Z.of_nat (length l' + 1 + 1) + -2)%Z with (Z.of_nat (length l')) by lia.
    replace (Z.of_nat (length l' + 1) + -1)%Z with (Z.of_nat (length l')) by lia.
    replace ((0 <=? Z.of_nat (length l'))%Z
             && (Z.of_nat (length l') <? Z.of_nat (length l' + 1 + 1))%Z)
      with true by (symmetry; in_bounds).
    replace ((0 <=? Z.of_nat (length l'))%Z
             && (Z.of_nat (length l') <? Z.of_nat (length l' + 1))%Z)
      with true by (symmetry; in_bounds).
    rewrite Nat2Z.id.
    rewrite (nth_error_app1 (l' ++ [b]) [a]) by (rewrite length_app; simpl; lia).
    reflexivity.
Qed.

Lemma index_short {A : Type} (l : list A) :
  (length l < 2)%nat -> index l (-2) = Raise IndexError.
Proof.
  intros H. unfold index. change (-2 <? 0)%Z with true. cbv iota.
  replace ((0 <=? Z.of_nat (length l) + -2)%Z
           && (Z.of_nat (length l) + -2 <? Z.of_nat (length l))%Z)
    with false by (symmetry; out_of_bounds).
  reflexivity.
Qed.

Lemma min_is_Rmin (a b : R) : Py.min a b = Rmin a b.
Proof.
  unfold Py.min, Rmin. destruct (Rlt_dec b a), (Rle_dec a b); lra.
Qed.

End PyFacts.

(** ** StringOptimizer: clipping, countdown and the step formula *)

Module StringOptimizerFacts.

Import Py Np StringOptimizer PyFacts.

(** The mask-based update of the source is a component-wise map. *)
Lemma restrict_as_map (m : R) (steps : vec) :
  restrict_step_components m steps = map (clamp m) steps.
Proof.
  unfold restrict_step_components. cbv zeta.
  induction steps as [|x steps IH]; [reflexivity|].
  cbn [map select]. unfold clamp at 1. unfold Rgtb at 1 3.
  destruct (Rgt_dec (Rabs x) m); cbn [map mask_assign]; now rewrite IH.
Qed.

Lemma clamp_within (m x : R) : Rabs x <= m -> clamp m x = x.
Proof. intros H. unfold clamp. destruct (Rgt_dec (Rabs x) m); lra. Qed.

Lemma clamp_bound (m x : R) : 0 <= m -> Rabs (clamp m x) <= m.
Proof.
  intros Hm. unfold clamp, sign.
  destruct (Rgt_dec (Rabs x) m) as [Hx|Hx]; [|lra].
  destruct (Rlt_dec x 0); [|destruct (Rlt_dec 0 x)].
  - replace (-1 * m) with (- m) by lra. rewrite Rabs_Ropp, Rabs_pos_eq; lra.
  - rewrite Rmult_1_l, Rabs_pos_eq; lra.
  - rewrite Rmult_0_l, Rabs_R0. lra.
Qed.

Lemma run_checks_nth (cycles : list (geometry * bool)) :
  forall (st : optimizer) (k : nat) (g : geometry) (converged : bool),
    Forall (fun c => fully_grown (fst c) = true) cycles ->
    nth_error cycles k = Some (g, converged) ->
    nth_error (run_checks st cycles) k =
      Some ((stop_in st - 1 - Z.of_nat k =? 0)%Z,
            (stop_in st - 1 - Z.of_nat k =? 0)%Z || converged).
Proof.
  induction cycles as [|[g0 c0] rest IH]; intros st k g converged Hall Hk.
  - destruct k; discriminate.
  - inversion Hall as [|? ? Hg0 Hrest]; subst. simpl in Hg0.
    destruct k as [|k]; simpl in Hk |- *.
    + inversion Hk; subst. unfold full_stop, count_down. rewrite Hg0. simpl.
      rewrite Z.sub_0_r. reflexivity.
    + rewrite (IH _ k g converged Hrest Hk).
      unfold count_down. rewrite Hg0. simpl stop_in.
      replace (stop_in st - 1 - 1 - Z.of_nat k)%Z
        with (stop_in st - 1 - Z.pos (Pos.of_succ_nat k))%Z by lia.
      reflexivity.
Qed.

Lemma run_checks_never (cycles : list (geometry * bool)) :
  forall (st : optimizer) (k : nat) (g : geometry) (converged : bool),
    (stop_in st <= 0)%Z ->
    nth_error cycles k = Some (g, converged) ->
    nth_error (run_checks st cycles) k = Some (false, converged).
Proof.
  induction cycles as [|[g0 c0] rest IH]; intros st k g converged Hst Hk.
  - destruct k; discriminate.
  - assert (Hfs : full_stop st g0 = false).
    { unfold full_stop, count_down. destruct (fully_grown g0); [|reflexivity].
      simpl. apply Z.eqb_neq. lia. }
    destruct k as [|k]; simpl in Hk |- *.
    + inversion Hk; subst. rewrite Hfs. reflexivity.
    + apply (IH _ k g converged); [|exact Hk].
      unfold count_down. destruct (fully_grown g0); simpl; lia.
Qed.

(** C2. [restrict_step_components] keeps the length of the step, replaces
    every component whose absolute value exceeds [max_step] by
    [sign(component) * max_step] and leaves every other component as it is; a
    step whose components all lie within [max_step] comes back unchanged, for
    a non-negative [max_step] clipping twice is clipping once, and [optimize]
    applies the clipping to the step the formula produced. *)
Theorem restrict_step_components_clamps (m : R) (steps : vec) :
  length (restrict_step_components m steps) = length steps /\
  (forall (i : nat) (x : R),
      nth_error steps i = Some x ->
      (Rabs x > m ->
       nth_error (restrict_step_components m steps) i = Some (sign x * m)) /\
      (Rabs x <= m ->
       nth_error (restrict_step_components m steps) i = Some x)) /\
  (Forall (fun x => Rabs x <= m) steps ->
   restrict_step_components m steps = steps) /\
  (0 <= m ->
   restrict_step_components m (restrict_step_components m steps)
   = restrict_step_components m steps) /\
  (forall procrustes st g pre st',
      max_step st = m ->
      unrestricted_step procrustes st g = Ok (pre, st') ->
      optimize procrustes st g = Ok (restrict_step_components m pre, st')).
Proof.
  rewrite !restrict_as_map. repeat split.
  - apply length_map.
  - intros Hx. rewrite nth_error_map, H. simpl. unfold clamp.
    destruct (Rgt_dec (Rabs x) m); [reflexivity|contradiction].
  - intros Hx. rewrite nth_error_map, H. simpl. now rewrite clamp_within.
  - intros Hall. induction Hall as [|x l Hx _ IH]; simpl; [reflexivity|].
    now rewrite clamp_within, IH.
  - intros Hm. rewrite map_map. apply map_ext.
    intros x. apply clamp_within, clamp_bound, Hm.
  - intros procrustes st g pre st' Hm Hpre.
    unfold optimize. rewrite Hpre. simpl. now rewrite Hm.
Qed.

Lemma restrict_step_components_clamps_witness :
  restrict_step_components (1 / 10) [2 / 10; - (5 / 100)]
  = [sign (2 / 10) * (1 / 10); - (5 / 100)]
  /\ restrict_step_components (1 / 10) [5 / 100; - (1 / 10)]
     = [5 / 100; - (1 / 10)].
Proof.
  split.
  - pose proof (restrict_step_components_clamps (1 / 10) [2 / 10; - (5 / 100)])
      as (Hlen & Hnth & _).
    assert (H0 := proj1 (Hnth 0%nat (2 / 10) eq_refl)).
    assert (H1 := proj2 (Hnth 1%nat (- (5 / 100)) eq_refl)).
    destruct (restrict_step_components _ _) as [|a [|b [|c l]]];
      try discriminate Hlen.
    simpl in H0, H1.
    assert (Ha : Some a = Some (sign (2 / 10) * (1 / 10)))
      by (apply H0; rewrite Rabs_pos_eq; lra).
    assert (Hb : Some b = Some (- (5 / 100)))
      by (apply H1; rewrite Rabs_Ropp, Rabs_pos_eq; lra).
    congruence.
  - apply (restrict_step_components_clamps (1 / 10) [5 / 100; - (1 / 10)]).
    repeat constructor; [rewrite Rabs_pos_eq | rewrite Rabs_Ropp, Rabs_pos_eq]; lra.
Defined.

(** C3. With a countdown [N] and a string that is fully grown in every cycle
    from cycle 0 on, [full_stop] holds in cycle [k] exactly when [k = N]
    (so in no earlier cycle, and in cycle [N] when [N >= 0] and that cycle is
    reached), the value returned in a cycle is [full_stop or converged], and
    whenever [full_stop] holds [check_convergence] returns true whatever the
    generic check says. *)
Theorem fully_grown_countdown (g0 : geometry) (gamma0 max_step0 : R) (N : Z)
  (align0 : bool) (st : optimizer) (cycles : list (geometry * bool)) :
  init g0 gamma0 max_step0 N align0 = Ok st ->
  Forall (fun c => fully_grown (fst c) = true) cycles ->
  (forall k g converged,
      nth_error cycles k = Some (g, converged) ->
      nth_error (run_checks st cycles) k
      = Some ((Z.of_nat k =? N)%Z, (Z.of_nat k =? N)%Z || converged)) /\
  ((0 <= N)%Z -> (Z.to_nat N < length cycles)%nat ->
   nth_error (run_checks st cycles) (Z.to_nat N) = Some (true, true)) /\
  (forall st' g converged,
      full_stop st' g = true -> fst (check_convergence st' g converged) = true).
Proof.
  intros Hinit Hall.
  assert (Hstop : stop_in st = (N + 1)%Z).
  { unfold init in Hinit. destruct (is_cos g0); [|discriminate].
    inversion Hinit; reflexivity. }
  assert (Hk : forall k g converged,
             nth_error cycles k = Some (g, converged) ->
             nth_error (run_checks st cycles) k
             = Some ((Z.of_nat k =? N)%Z, (Z.of_nat k =? N)%Z || converged)).
  { intros k g converged Hnth.
    rewrite (run_checks_nth cycles st k g converged Hall Hnth), Hstop.
    replace (N + 1 - 1 - Z.of_nat k =? 0)%Z with (Z.of_nat k =? N)%Z; [reflexivity|].
    destruct (Z.eqb_spec (Z.of_nat k) N), (Z.eqb_spec (N + 1 - 1 - Z.of_nat k) 0);
      try reflexivity; lia. }
  split; [exact Hk|split].
  - intros HN Hlen.
    destruct (nth_error cycles (Z.to_nat N)) as [[g c]|] eqn:E.
    + rewrite (Hk _ g c E). rewrite Z2Nat.id by exact HN.
      rewrite Z.eqb_refl. reflexivity.
    + apply nth_error_None in E. lia.
  - intros st' g converged Hfs. unfold check_convergence. simpl.
    rewrite Hfs. reflexivity.
Qed.

Definition grown_cos : geometry :=
  {| coords := [0; 0]; forces := [1; 0]; energy := 0;
     fully_grown := true; coord_type := "cart"; is_cos := true |}.

Lemma fully_grown_countdown_witness :
  nth_error
    (run_checks
       {| gamma := default_gamma; max_step := default_max_step;
          stop_in_when_full := 2; stop_in := 3;
          is_cart_opt := true; align := false; cur_cycle := 0;
          coords_hist := []; energies_hist := [];
          forces_hist := []; steps_hist := [] |}
       [(grown_cos, false); (grown_cos, false); (grown_cos, false);
        (grown_cos, false)]) 2
  = Some (true, true).
Proof.
  apply (fully_grown_countdown grown_cos default_gamma default_max_step 2 false).
  - reflexivity.
  - repeat constructor.
  - lia.
  - simpl. lia.
Defined.

(** C10. With the default [stop_in_when_full = -1] the counter starts at 0,
    it is decremented before the test in every fully grown cycle, so
    [full_stop] is false in every cycle, whatever the string reports, and
    [check_convergence] returns the verdict of the generic check. *)
Theorem default_countdown_never_stops (g0 : geometry) (gamma0 max_step0 : R)
  (align0 : bool) (st : optimizer) (cycles : list (geometry * bool)) :
  init g0 gamma0 max_step0 default_stop_in_when_full align0 = Ok st ->
  stop_in st = 0%Z /\
  (forall g, fully_grown g = true -> stop_in (count_down st g) = (-1)%Z) /\
  (forall k g converged,
      nth_error cycles k = Some (g, converged) ->
      nth_error (run_checks st cycles) k = Some (false, converged)).
Proof.
  intros Hinit.
  assert (Hstop : stop_in st = 0%Z).
  { unfold init in Hinit. destruct (is_cos g0); [|discriminate].
    inversion Hinit; reflexivity. }
  split; [exact Hstop|split].
  - intros g Hg. unfold count_down. rewrite Hg. simpl. lia.
  - intros k g converged Hnth.
    apply (run_checks_never cycles st k g converged); [lia|exact Hnth].
Qed.

Lemma default_countdown_never_stops_witness :
  nth_error
    (run_checks
       {| gamma := default_gamma; max_step := default_max_step;
          stop_in_when_full := -1; stop_in := 0;
          is_cart_opt := true; align := false; cur_cycle := 0;
          coords_hist := []; energies_hist := [];
          forces_hist := []; steps_hist := [] |}
       [(grown_cos, false); (grown_cos, true); (grown_cos, false)]) 2
  = Some (false, false).
Proof.
  refine (proj2 (proj2 (default_countdown_never_stops grown_cos default_gamma
                          default_max_step false _ _ _)) 2%nat grown_cos false _);
    reflexivity.
Defined.

Lemma quot_as_ratio (a b : R) :
  Py.min (a ^ 2 / b ^ 2) 1 = Rmin ((a / b) ^ 2) 1.
Proof.
  rewrite min_is_Rmin. f_equal.
  unfold Rdiv. now rewrite Rpow_mult_distr, pow_inv.
Qed.

Lemma add_same_length (u v : vec) :
  length u = length v -> add u v = Ok (zip_with Rplus u v).
Proof.
  intros H. unfold add, broadcast. now rewrite H, Nat.eqb_refl.
Qed.

Lemma string_size_changed_spec (st : optimizer) (g : geometry) :
  string_size_changed st g = true <->
  ((length (coords_hist st) < 2)%nat \/
   exists prev, index (coords_hist st) (-2) = Ok prev /\
                length (coords g) <> length prev).
Proof.
  unfold string_size_changed. split.
  - intros H. destruct (index (coords_hist st) (-2)) as [prev|e] eqn:E.
    + right. exists prev. split; [reflexivity|].
      apply negb_true_iff, Nat.eqb_neq in H. exact H.
    + left. destruct (Nat.lt_ge_cases (length (coords_hist st)) 2) as [Hl|Hl];
        [exact Hl|].
      unfold index in E. change (-2 <? 0)%Z with true in E. cbv iota in E.
      replace ((0 <=? Z.of_nat (length (coords_hist st)) + -2)%Z
               && (Z.of_nat (length (coords_hist st)) + -2
                   <? Z.of_nat (length (coords_hist st)))%Z)
        with true in E by (symmetry; in_bounds).
      destruct (nth_error _ _) eqn:En; [discriminate|].
      apply nth_error_None in En. lia.
  - intros [Hl|(prev & Hp & Hne)].
    + now rewrite index_short.
    + rewrite Hp. now apply negb_true_iff, Nat.eqb_neq.
Qed.

(** C1. Let [gamma] be non-zero.  In the first cycle, or when the number of
    coordinates differs from that of the previous cycle (which includes having
    no previous cycle), the step before clipping is [forces / gamma], whatever
    forces and steps the histories hold.  In every other cycle, when the
    forces of the previous cycle are not all zero, it is
    [forces / gamma + ratio * previous_step] with
    [ratio = min((norm(forces) / norm(previous_forces))^2, 1)], and
    [ratio <= 1].  [forces] are the forces the geometry reports when
    [optimize] reads them.  A zero [gamma] and zero previous forces are left
    out: there numpy divides by zero and yields [inf] or [nan], which the
    real numbers of this development do not have. *)
Theorem step_formula (procrustes : geometry -> geometry) (st : optimizer)
  (g : geometry) :
  let g1 := aligned procrustes st g in
  let f := forces g1 in
  let st1 := record_forces st (energy g1) f in
  gamma st <> 0 ->
  ((cur_cycle st = 0%Z \/ (length (coords_hist st) < 2)%nat \/
    (exists prev, index (coords_hist st) (-2) = Ok prev /\
                  length (coords g) <> length prev)) ->
   unrestricted_step procrustes st g = Ok (div_scalar f (gamma st), st1)) /\
  (forall prev prev_forces prev_step,
      cur_cycle st <> 0%Z ->
      index (coords_hist st) (-2) = Ok prev ->
      length (coords g) = length prev ->
      index (forces_hist st) (-1) = Ok prev_forces ->
      index (steps_hist st) (-1) = Ok prev_step ->
      length prev_step = length f ->
      0 < norm prev_forces ->
      let ratio := Rmin ((norm f / norm prev_forces) ^ 2) 1 in
      ratio <= 1 /\
      unrestricted_step procrustes st g
      = Ok (zip_with Rplus (div_scalar f (gamma st)) (scale ratio prev_step),
            st1)).
Proof.
  intros g1 f st1 Hgamma. split.
  - intros H. unfold unrestricted_step. fold g1. fold f. fold st1.
    change (cur_cycle st1) with (cur_cycle st).
    change (gamma st1) with (gamma st).
    destruct H as [H|H].
    + rewrite H. reflexivity.
    + apply string_size_changed_spec in H. rewrite H.
      now rewrite orb_true_r.
  - intros prev prev_forces prev_step Hc Hprev Hlen Hpf Hps Hl Hnorm ratio.
    split; [apply Rmin_r|].
    unfold unrestricted_step. fold g1. fold f. fold st1.
    change (cur_cycle st1) with (cur_cycle st).
    change (gamma st1) with (gamma st).
    change (forces_hist st1) with (forces_hist st ++ [f]).
    change (steps_hist st1) with (steps_hist st).
    apply Z.eqb_neq in Hc. rewrite Hc.
    assert (Hs : string_size_changed st g = false).
    { unfold string_size_changed. rewrite Hprev, Hlen, Nat.eqb_refl.
      reflexivity. }
    rewrite Hs. cbn [orb].
    rewrite index_before_last, Hpf. cbn [bind].
    rewrite Hps. cbn [bind].
    rewrite quot_as_ratio. fold ratio.
    rewrite add_same_length; [reflexivity|].
    unfold div_scalar, scale. now rewrite !length_map.
Qed.

Definition second_cycle : optimizer :=
  {| gamma := default_gamma; max_step := default_max_step;
     stop_in_when_full := -1; stop_in := 0;
     is_cart_opt := true; align := false; cur_cycle := 1;
     coords_hist := [[0; 0]; [1 / 10; 0]]; energies_hist := [1];
     forces_hist := [[2; 0]]; steps_hist := [[1 / 10; 0]] |}.

Definition second_geometry : geometry :=
  {| coords := [1 / 10; 0]; forces := [1; 0]; energy := 1 / 2;
     fully_grown := false; coord_type := "cart"; is_cos := true |}.

Lemma default_gamma_nonzero : default_gamma <> 0.
Proof. unfold default_gamma. lra. Qed.

Lemma norm_2_0_positive : 0 < norm [2; 0].
Proof.
  unfold norm. cbn [map sum fold_right]. apply sqrt_lt_R0. lra.
Qed.

Lemma step_formula_witness :
  unrestricted_step (fun g => g) second_cycle second_geometry
  = Ok (zip_with Rplus (div_scalar [1; 0] default_gamma)
          (scale (Rmin ((norm [1; 0] / norm [2; 0]) ^ 2) 1) [1 / 10; 0]),
        record_forces second_cycle (1 / 2) [1; 0]).
Proof.
  apply (proj2 (step_formula (fun g => g) second_cycle second_geometry
                  default_gamma_nonzero)
           [0; 0] [2; 0] [1 / 10; 0]).
  - discriminate.
  - reflexivity.
  - reflexivity.
  - reflexivity.
  - reflexivity.
  - reflexivity.
  - exact norm_2_0_positive.
Defined.

End StringOptimizerFacts.

(** ** Primitive: the parallelism test and the proximity weight *)

Module PrimitiveFacts.

Import Py Np Primitive PyFacts.

(** The cosine of the angle between two vectors of the same length, and the
    distance between two points. *)
Definition cos_angle (u v : vec) : R :=
  sum (zip_with Rmult u v) / (norm u * norm v).

Definition euclidean_distance (p q : vec) : R := norm (zip_with Rminus p q).

Lemma sum_squares_nonneg (u : vec) : 0 <= sum (map (fun x => x * x) u).
Proof.
  induction u as [|x u IH]; simpl; [lra|]. pose proof (Rle_0_sqr x) as Hx.
  unfold Rsqr in Hx. lra.
Qed.

Lemma sum_squares_pos (u : vec) :
  Exists (fun x => x <> 0) u -> 0 < sum (map (fun x => x * x) u).
Proof.
  induction 1 as [x u Hx|x u _ IH]; simpl.
  - pose proof (sum_squares_nonneg u). pose proof (Rsqr_pos_lt x Hx) as Hp.
    unfold Rsqr in Hp. lra.
  - pose proof (Rle_0_sqr x) as Hx. unfold Rsqr in Hx. lra.
Qed.

Lemma dot_scaled (c : R) (u : vec) :
  sum (zip_with Rmult u (scale c u)) = c * sum (map (fun x => x * x) u).
Proof.
  unfold scale. induction u as [|x u IH]; simpl; [lra|].
  rewrite IH. lra.
Qed.

Lemma norm_scaled (c : R) (u : vec) : 0 <= c -> norm (scale c u) = c * norm u.
Proof.
  intros Hc. unfold norm.
  assert (E : sum (map (fun x => x * x) (scale c u))
              = (c * c) * sum (map (fun x => x * x) u)).
  { unfold scale. induction u as [|x u IH]; simpl; [lra|].
    rewrite IH. lra. }
  rewrite E, sqrt_mult, sqrt_square; try lra.
  - apply Rle_0_sqr.
  - apply sum_squares_nonneg.
Qed.

Lemma Rltb_true (a b : R) : Rltb a b = true <-> a < b.
Proof. unfold Rltb. destruct (Rlt_dec a b); split; intros; try lra; discriminate. Qed.

Lemma parallel_same_length (u v : vec) (thresh : R) :
  length u = length v ->
  parallel u v thresh = Ok (Rltb (1 - Rabs (cos_angle u v)) thresh).
Proof.
  intros H. unfold parallel, dot. rewrite H, Nat.eqb_refl. reflexivity.
Qed.

(** C4. For vectors of the same length [parallel], with the default
    threshold, answers true exactly when [1 - |cos(angle(u, v))| < 1e-6]
    (vectors of different lengths make the dot product raise); a non-zero
    vector and a positive multiple of it are parallel; orthogonal vectors are
    not, unit or otherwise. *)
Theorem parallel_decides_cosine (u v : vec) :
  (length u = length v ->
   (parallel u v default_thresh = Ok true <->
    1 - Rabs (cos_angle u v) < 1 / 1000000) /\
   (parallel u v default_thresh = Ok false <->
    ~ 1 - Rabs (cos_angle u v) < 1 / 1000000)) /\
  (length u <> length v -> parallel u v default_thresh = Raise ValueError) /\
  (forall c, Exists (fun x => x <> 0) u -> 0 < c ->
             parallel u (scale c u) default_thresh = Ok true) /\
  (length u = length v -> sum (zip_with Rmult u v) = 0 ->
   parallel u v default_thresh = Ok false).
Proof.
  unfold default_thresh. repeat split.
  - rewrite parallel_same_length by assumption. intros E.
    apply Rltb_true. congruence.
  - intros E. rewrite parallel_same_length by assumption.
    f_equal. now apply Rltb_true.
  - rewrite parallel_same_length by assumption. intros E Hlt.
    apply Rltb_true in Hlt. congruence.
  - intros Hn. rewrite parallel_same_length by assumption. f_equal.
    unfold default_thresh. destruct (Rltb _ _) eqn:E; [|reflexivity].
    apply Rltb_true in E. contradiction.
  - intros Hne. unfold parallel, dot.
    apply Nat.eqb_neq in Hne. now rewrite Hne.
  - intros c Hu Hc.
    rewrite parallel_same_length by (unfold scale; now rewrite length_map).
    f_equal. apply Rltb_true.
    unfold cos_angle. rewrite dot_scaled, norm_scaled by lra.
    pose proof (sum_squares_pos u Hu) as Hp.
    pose proof (sqrt_lt_R0 _ Hp) as Hs.
    replace (c * sum (map (fun x => x * x) u) / (norm u * (c * norm u)))
      with 1.
    + rewrite Rabs_R1. lra.
    + unfold norm. rewrite <- (sqrt_sqrt (sum (map (fun x => x * x) u))) at 1
        by lra.
      field. lra.
  - intros Hlen Horth. rewrite parallel_same_length by assumption. f_equal.
    unfold cos_angle. rewrite Horth.
    unfold Rdiv. rewrite Rmult_0_l, Rabs_R0.
    destruct (Rltb _ _) eqn:E; [apply Rltb_true in E; lra|reflexivity].
Qed.

Lemma parallel_decides_cosine_witness :
  parallel [1; 2] (scale 3 [1; 2]) default_thresh = Ok true /\
  parallel [1; 0] [0; 1] default_thresh = Ok false.
Proof.
  split.
  - apply (parallel_decides_cosine [1; 2] [1; 2]).
    + left. lra.
    + lra.
  - apply (parallel_decides_cosine [1; 0] [0; 1]).
    + reflexivity.
    + simpl. lra.
Defined.

Lemma sub_same_length (p q : vec) :
  length p = length q -> sub p q = Ok (zip_with Rminus p q).
Proof.
  intros H. unfold sub, broadcast. now rewrite H, Nat.eqb_refl.
Qed.

Lemma index_map {A B : Type} (f : A -> B) (l : list A) (i : Z) :
  index (map f l) i
  = match index l i with Ok a => Ok (f a) | Raise e => Raise e end.
Proof.
  unfold index. rewrite length_map.
  destruct (_ && _); [|reflexivity].
  rewrite nth_error_map. now destruct (nth_error l _).
Qed.

Lemma lower_ascii_idempotent (c : ascii) :
  lower_ascii (lower_ascii c) = lower_ascii c.
Proof. destruct c as [[] [] [] [] [] [] [] []]; reflexivity. Qed.

Lemma lower_idempotent (s : string) : lower (lower s) = lower s.
Proof.
  induction s as [|c s IH]; simpl; [reflexivity|].
  now rewrite lower_ascii_idempotent, IH.
Qed.

Section RhoFacts.

Variable CR : string -> option R.

Lemma rho_value (atoms : list string) (coords3d : list vec) (i j : Z)
  (ci cj : vec) (ai aj : string) (ri rj : R) :
  index coords3d i = Ok ci -> index coords3d j = Ok cj ->
  length ci = length cj ->
  index atoms i = Ok ai -> index atoms j = Ok aj ->
  CR (lower ai) = Some ri -> CR (lower aj) = Some rj ->
  rho CR atoms coords3d [i; j]
  = Ok (exp (- (euclidean_distance ci cj / (ri + rj) - 1))).
Proof.
  intros Hci Hcj Hlen Hai Haj Hri Hrj. unfold rho.
  rewrite Hci, Hcj. cbn [bind]. rewrite (sub_same_length _ _ Hlen).
  cbn [bind]. rewrite Hai. cbn [bind]. unfold CR_getitem. rewrite Hri.
  cbn [bind]. rewrite Haj. cbn [bind]. rewrite Hrj. reflexivity.
Qed.

Lemma rho_reads_lowercase (atoms atoms' : list string) (coords3d : list vec)
  (indices : list Z) :
  map lower atoms = map lower atoms' ->
  rho CR atoms coords3d indices = rho CR atoms' coords3d indices.
Proof.
  intros H. unfold rho.
  destruct indices as [|i [|j [|k l]]]; try reflexivity.
  destruct (index coords3d i); [|reflexivity].
  destruct (index coords3d j); [|reflexivity].
  cbn [bind]. destruct (sub a a0); [|reflexivity]. cbn [bind].
  pose proof (index_map lower atoms i) as Hi.
  pose proof (index_map lower atoms j) as Hj.
  rewrite H, index_map in Hi, Hj.
  destruct (index atoms i), (index atoms' i); try discriminate Hi;
    cbn [bind]; [|congruence].
  injection Hi as Hi. rewrite Hi.
  destruct (CR_getitem CR (lower a2)); [|reflexivity]. cbn [bind].
  destruct (index atoms j), (index atoms' j); try discriminate Hj;
    cbn [bind]; [|congruence].
  injection Hj as Hj. now rewrite Hj.
Qed.

(** C5. For an atom pair [(i, j)] whose symbols, lower-cased, have covalent
    radii [r_i] and [r_j], [rho] is [exp(-(d / (r_i + r_j) - 1))] with [d] the
    Euclidean distance of the two atoms; it is 1 when [d = r_i + r_j] (the
    radii sum being non-zero); for a positive radii sum a larger distance
    gives a strictly smaller weight; and atom lists that agree up to the case
    of their symbols give the same result. *)
Theorem rho_proximity_weight (atoms : list string) (coords3d : list vec)
  (i j : Z) (ci cj : vec) (ai aj : string) (ri rj : R) :
  index coords3d i = Ok ci -> index coords3d j = Ok cj ->
  length ci = length cj ->
  index atoms i = Ok ai -> index atoms j = Ok aj ->
  CR (lower ai) = Some ri -> CR (lower aj) = Some rj ->
  rho CR atoms coords3d [i; j]
  = Ok (exp (- (euclidean_distance ci cj / (ri + rj) - 1))) /\
  (ri + rj <> 0 -> euclidean_distance ci cj = ri + rj ->
   rho CR atoms coords3d [i; j] = Ok 1) /\
  (forall coords3d' ci' cj',
      index coords3d' i = Ok ci' -> index coords3d' j = Ok cj' ->
      length ci' = length cj' ->
      0 < ri + rj ->
      euclidean_distance ci cj < euclidean_distance ci' cj' ->
      exists w w',
        rho CR atoms coords3d [i; j] = Ok w /\
        rho CR atoms coords3d' [i; j] = Ok w' /\ w' < w) /\
  (forall atoms' indices,
      map lower atoms' = map lower atoms ->
      rho CR atoms' coords3d indices = rho CR atoms coords3d indices).
Proof.
  intros Hci Hcj Hlen Hai Haj Hri Hrj.
  pose proof (rho_value atoms coords3d i j ci cj ai aj ri rj
                Hci Hcj Hlen Hai Haj Hri Hrj) as Hv.
  repeat split.
  - exact Hv.
  - intros Hne Hd. rewrite Hv, Hd. f_equal.
    replace (- ((ri + rj) / (ri + rj) - 1)) with 0 by (field; exact Hne).
    apply exp_0.
  - intros coords3d' ci' cj' Hci' Hcj' Hlen' Hpos Hlt.
    do 2 eexists. split; [exact Hv|]. split.
    + apply (rho_value atoms coords3d' i j ci' cj' ai aj ri rj); assumption.
    + apply exp_increasing.
      apply Ropp_lt_contravar. unfold Rminus. apply Rplus_lt_compat_r.
      unfold Rdiv. apply Rmult_lt_compat_r; [|exact Hlt].
      now apply Rinv_0_lt_compat.
  - intros atoms' indices H. now apply rho_reads_lowercase.
Qed.

End RhoFacts.

(** A two-entry radius table and a C-H pair at distance 1. *)
Definition radii (symbol : string) : option R :=
  if String.eqb symbol "c" then Some (3 / 4)
  else if String.eqb symbol "h" then Some (1 / 4)
  else None.

Lemma rho_proximity_weight_witness :
  rho radii ["C"; "H"]%string [[0; 0; 0]; [0; 0; 1]] [0; 1]%Z = Ok 1 /\
  rho radii ["c"; "h"]%string [[0; 0; 0]; [0; 0; 1]] [0; 1]%Z
  = rho radii ["C"; "H"]%string [[0; 0; 0]; [0; 0; 1]] [0; 1]%Z.
Proof.
  assert (Hd : euclidean_distance [0; 0; 0] [0; 0; 1] = 3 / 4 + 1 / 4).
  { unfold euclidean_distance, norm. simpl.
    replace ((0 - 0) * (0 - 0) + ((0 - 0) * (0 - 0) + ((0 - 1) * (0 - 1) + 0)))
      with 1 by lra.
    rewrite sqrt_1. lra. }
  pose proof (rho_proximity_weight radii ["C"; "H"]%string
                [[0; 0; 0]; [0; 0; 1]] 0 1 [0; 0; 0] [0; 0; 1] "C" "H"
                (3 / 4) (1 / 4) eq_refl eq_refl eq_refl eq_refl eq_refl
                eq_refl eq_refl) as (_ & Hone & _ & Hcase).
  split.
  - apply Hone; [lra|exact Hd].
  - apply Hcase. reflexivity.
Defined.

End PrimitiveFacts.

(** ** Calculator: what [run] does when the evaluation fails *)

Module CalculatorFacts.

Import Py Calculator.

(** A run whose external program exits with status 1 and prints nothing the
    energy parser understands. *)
Definition failing_program (args : list string) (dir : directory)
  : result (Z * string) :=
  Ok (1%Z, "segmentation fault"%string).

Definition energy_parser (dir : directory) : result R :=
  match find (fun f => String.eqb (fst f) "calc.out") dir with
  | Some f => if String.eqb (snd f) "energy 1" then Ok 1
              else Raise (ParseError "no energy in calc.out")
  | None => Raise OSError
  end.

Definition failing : collaborators R :=
  {| program := failing_program;
     parser_funcs := fun calc =>
       if String.eqb calc "energy" then Some energy_parser else None;
     exn_text := fun _ => "no energy in calc.out"%string |}.

Definition fresh_dir (w : world) (prefix : string) (counter : Z) : string :=
  (prefix ++ "_000_tmp")%string.

Definition idle : calculator :=
  {| name := "calculator_0"; base_cmd := "prog"; inp_fn := "calc.inp";
     out_fn := "calc.out"; calc_counter := 0 |}.

Definition empty_world : world :=
  {| scratch := []; crashed := []; stdout := [] |}.

Section RunFacts.

Context {results : Type}.
Variable ext : collaborators results.
Variable mkdtemp : world -> string -> Z -> string.

(** The world after the input and the empty output file have been written,
    and after the program has written its output. *)
Definition started (c : calculator) (w : world) (inp : string) : world :=
  let '(path, w1) := prepare mkdtemp c w inp in
  {| scratch := write_file path (out_fn c) "" (scratch w1);
     crashed := crashed w1; stdout := stdout w1 |}.

Definition finished (c : calculator) (w : world) (inp output : string) : world :=
  let path := fst (prepare mkdtemp c w inp) in
  let w2 := started c w inp in
  {| scratch := write_file path (out_fn c) output (scratch w2);
     crashed := crashed w2; stdout := stdout w2 |}.


End RunFacts.



End CalculatorFacts.

(** ** SimpleZTS: the energy-weighted parameters and the resampling *)

Module SimpleZTSFacts.

Import Py Np SimpleZTS PyFacts.

Lemma index_nth {A : Type} (l : list A) (i : nat) (d : A) :
  (i < length l)%nat -> index l (Z.of_nat i) = Ok (nth i l d).
Proof. intros H. apply index_nat. now apply nth_error_nth'. Qed.

Lemma index_minus_one {A : Type} (l : list A) (d : A) :
  l <> [] -> index l (-1) = Ok (last l d).
Proof.
  intros H. destruct (exists_last H) as (l' & a & ->).
  now rewrite index_last, last_last.
Qed.

Lemma comprehension_map {A B : Type} (f : A -> result B) (g : A -> B)
  (l : list A) :
  (forall a, In a l -> f a = Ok (g a)) -> comprehension f l = Ok (map g l).
Proof.
  induction l as [|a l IH]; intros H; simpl; [reflexivity|].
  rewrite (H a (or_introl eq_refl)), IH; [reflexivity|].
  intros b Hb. apply H. now right.
Qed.

(** The largest element of a non-empty array. *)
Lemma fold_Rmax_spec (v : vec) :
  forall x, (x <= fold_left Rmax v x) /\
            (forall y, In y v -> y <= fold_left Rmax v x) /\
            In (fold_left Rmax v x) (x :: v).
Proof.
  induction v as [|a v IH]; intros x; simpl.
  - repeat split; [lra|contradiction|now left].
  - destruct (IH (Rmax x a)) as (H1 & H2 & H3).
    pose proof (Rmax_l x a). pose proof (Rmax_r x a).
    repeat split.
    + lra.
    + intros y [<-|Hy]; [lra|now apply H2].
    + destruct H3 as [H3|H3]; [|now right; right].
      rewrite <- H3. unfold Rmax. destruct (Rle_dec x a); [right|]; now left.
Qed.

Lemma amax_spec (v : vec) (m : R) :
  amax v = Ok m -> In m v /\ forall y, In y v -> y <= m.
Proof.
  destruct v as [|x v]; [discriminate|]. simpl. intros [= <-].
  destruct (fold_Rmax_spec v x) as (H1 & H2 & H3).
  split; [exact H3|]. intros y [<-|Hy]; [exact H1|now apply H2].
Qed.

Lemma amax_is (v : vec) (m : R) :
  In m v -> (forall y, In y v -> y <= m) -> amax v = Ok m.
Proof.
  intros Hin Hub. destruct v as [|x v]; [contradiction|].
  destruct (amax (x :: v)) as [m'|e] eqn:E; [|discriminate].
  apply amax_spec in E. destruct E as (Hin' & Hub').
  f_equal. apply Rle_antisym; auto.
Qed.

Lemma index_map_nth {A B : Type} (f : A -> B) (l : list A) (i : nat) (d : A) :
  (i < length l)%nat -> index (map f l) (Z.of_nat i) = Ok (f (nth i l d)).
Proof.
  intros H. apply index_nat.
  now rewrite nth_error_map, (nth_error_nth' l d H).
Qed.

Lemma nth_map_sqrt_nonneg (l : vec) (k : nat) : 0 <= nth k (map sqrt l) 0.
Proof.
  rewrite <- sqrt_0 at 2. rewrite map_nth. apply sqrt_pos.
Qed.

Lemma last_map_seq (f : nat -> R) (k : nat) :
  last (map f (seq 0 (S k))) 0 = f k.
Proof. rewrite seq_S, map_app. cbn [map]. now rewrite last_last. Qed.

Lemma nth_map_seq (f : nat -> R) (m k : nat) :
  (k < m)%nat -> nth k (map f (seq 0 m)) 0 = f k.
Proof.
  intros H. rewrite (nth_indep _ 0 (f 0%nat)) by now rewrite length_map, length_seq.
  now rewrite map_nth, seq_nth.
Qed.

Section EnergyWeighted.

Variable energy : vec -> R.
Variable z : chain.

(** The quantities the specification names: the images, the mean energy and
    the length of the segment between image [k] and image [k + 1], and the
    weighted length of the path up to image [k]. *)
Definition image_at (k : nat) : vec := nth k (images z) [].

Definition segment_mean (k : nat) : R :=
  (energy (image_at (S k)) + energy (image_at k)) / 2.

Definition segment_length (k : nat) : R :=
  norm (zip_with Rminus (image_at (S k)) (image_at k)).

Fixpoint arc_at (weights : vec) (k : nat) : R :=
  match k with
  | O => 0
  | S k' => arc_at weights k' + nth k' weights 0 * segment_length k'
  end.

Hypothesis same_length :
  forall img, In img (images z) -> length img = coords_length z.

Lemma image_at_length (k : nat) :
  (k < length (images z))%nat -> length (image_at k) = coords_length z.
Proof. intros H. apply same_length, nth_In, H. Qed.

Lemma mean_energies_spec :
  (1 <= length (images z))%nat ->
  mean_energies energy z
  = Ok (map segment_mean (seq 0 (length (images z) - 1))).
Proof.
  intros Hn. unfold mean_energies, range.
  rewrite (comprehension_map _
             (fun i => segment_mean (Z.to_nat i - 1))).
  - f_equal. rewrite <- seq_shift, !map_map. apply map_ext.
    intros k. rewrite Nat2Z.id. f_equal. lia.
  - intros i Hi. apply in_map_iff in Hi. destruct Hi as (k & <- & Hk).
    apply in_seq in Hk. destruct k as [|k]; [lia|].
    rewrite (index_map_nth energy (images z) (S k) []) by lia.
    cbn [bind].
    replace (Z.of_nat (S k) - 1)%Z with (Z.of_nat k) by lia.
    rewrite (index_map_nth energy (images z) k []) by lia.
    cbn [bind]. rewrite Nat2Z.id.
    replace (S k - 1)%nat with k by lia. reflexivity.
Qed.

Lemma weight_function_spec (means : vec) (M : R) :
  amax (map Rabs means) = Ok M ->
  weight_function means = Ok (map (fun e => sqrt (Rabs e / M)) means).
Proof.
  intros HM. unfold weight_function. rewrite HM. cbn [bind].
  unfold div_scalar. now rewrite !map_map.
Qed.

Lemma arc_body_spec (weights : vec) (k : nat) :
  (S k < length (images z))%nat -> (k < length weights)%nat ->
  arc_body z weights (Z.of_nat (S k)) (map (arc_at weights) (seq 0 (S k)))
  = Ok (map (arc_at weights) (seq 0 (S (S k)))).
Proof.
  intros Hk Hw. unfold arc_body.
  rewrite (index_nth (images z) (S k) []) by lia. cbn [bind].
  replace (Z.of_nat (S k) - 1)%Z with (Z.of_nat k) by lia.
  rewrite (index_nth (images z) k []) by lia. cbn [bind].
  fold (image_at (S k)). fold (image_at k).
  unfold sub, broadcast.
  rewrite !image_at_length by lia. rewrite Nat.eqb_refl. cbn [bind].
  rewrite (index_minus_one _ 0) by (rewrite seq_S, map_app; now destruct (map _ _)).
  cbn [bind]. rewrite (index_nth weights k 0) by lia. cbn [bind].
  rewrite last_map_seq. fold (segment_length k).
  now rewrite (seq_S (S k)), map_app.
Qed.

Lemma arc_loop_from (weights : vec) (m : nat) :
  forall k,
    (S k + m = length (images z))%nat ->
    (length weights = length (images z) - 1)%nat ->
    for_each (arc_body z weights) (map Z.of_nat (seq (S k) m))
      (map (arc_at weights) (seq 0 (S k)))
    = Ok (map (arc_at weights) (seq 0 (length (images z)))).
Proof.
  induction m as [|m IH]; intros k Hk Hw.
  - simpl. now replace (length (images z)) with (S k) by lia.
  - cbn [seq map for_each]. rewrite arc_body_spec by lia.
    apply IH; lia.
Qed.

Lemma arc_loop_spec (weights : vec) :
  (1 <= length (images z))%nat ->
  (length weights = length (images z) - 1)%nat ->
  arc_loop z weights
  = Ok (map (arc_at weights) (seq 0 (length (images z)))).
Proof.
  intros Hn Hw. unfold arc_loop, range.
  apply (arc_loop_from weights (length (images z) - 1) 0); lia.
Qed.

Lemma segment_length_nonneg (k : nat) : 0 <= segment_length k.
Proof. apply sqrt_pos. Qed.

Lemma arc_at_step (weights : vec) (k : nat) :
  (forall j, 0 <= nth j weights 0) ->
  arc_at weights k <= arc_at weights (S k).
Proof.
  intros Hw. simpl.
  pose proof (Rmult_le_pos _ _ (Hw k) (segment_length_nonneg k)). lra.
Qed.

Lemma arc_at_monotone (weights : vec) (j k : nat) :
  (forall i, 0 <= nth i weights 0) ->
  (j <= k)%nat -> arc_at weights j <= arc_at weights k.
Proof.
  intros Hw. induction 1 as [|k _ IH]; [lra|].
  pose proof (arc_at_step weights k Hw). lra.
Qed.

Lemma arc_max (weights : vec) (n : nat) :
  (forall i, 0 <= nth i weights 0) ->
  amax (map (arc_at weights) (seq 0 (S n))) = Ok (arc_at weights n).
Proof.
  intros Hw. apply amax_is.
  - apply in_map, in_seq. lia.
  - intros y Hy. apply in_map_iff in Hy. destruct Hy as (j & <- & Hj).
    apply in_seq in Hj. apply arc_at_monotone; [exact Hw|lia].
Qed.

(** What [arc_segments] computes for a chain of at least two images. *)
Lemma arc_segments_spec :
  (2 <= length (images z))%nat ->
  exists M weights,
    amax (map Rabs (map segment_mean (seq 0 (length (images z) - 1)))) = Ok M /\
    weights = map (fun k => sqrt (Rabs (segment_mean k) / M))
                (seq 0 (length (images z) - 1)) /\
    weight_function (map segment_mean (seq 0 (length (images z) - 1)))
    = Ok weights /\
    arc_segments energy z
    = Ok (map (fun k => arc_at weights k
                        / arc_at weights (length (images z) - 1))
            (seq 0 (length (images z)))).
Proof.
  intros Hn. set (n := length (images z)) in *.
  destruct (amax (map Rabs (map segment_mean (seq 0 (n - 1)))))
    as [M|e] eqn:HM.
  2:{ destruct (n - 1)%nat eqn:E; [lia|discriminate]. }
  exists M, (map (fun k => sqrt (Rabs (segment_mean k) / M)) (seq 0 (n - 1))).
  assert (Hwf : weight_function (map segment_mean (seq 0 (n - 1)))
                = Ok (map (fun k => sqrt (Rabs (segment_mean k) / M))
                        (seq 0 (n - 1)))).
  { rewrite (weight_function_spec _ M HM). now rewrite map_map. }
  repeat split; [exact Hwf|].
  unfold arc_segments. rewrite mean_energies_spec by (fold n; lia).
  fold n. cbn [bind]. rewrite Hwf. cbn [bind].
  set (weights := map (fun k => sqrt (Rabs (segment_mean k) / M)) (seq 0 (n - 1))).
  rewrite arc_loop_spec;
    [|fold n; lia|unfold weights; rewrite length_map, length_seq; reflexivity].
  fold n. cbn [bind].
  replace n with (S (n - 1)) at 1 by lia.
  rewrite arc_max.
  - cbn [bind]. unfold div_scalar. now rewrite map_map.
  - intros i. unfold weights. rewrite <- map_map. apply nth_map_sqrt_nonneg.
Qed.

(** The weighted length of the whole path. *)
Definition max_abs_mean : R :=
  match amax (map Rabs (map segment_mean (seq 0 (length (images z) - 1)))) with
  | Ok M => M
  | Raise _ => 0
  end.

Definition segment_weights : vec :=
  map (fun k => sqrt (Rabs (segment_mean k) / max_abs_mean))
    (seq 0 (length (images z) - 1)).

Definition weighted_length : R :=
  arc_at segment_weights (length (images z) - 1).

Lemma arc_segments_ends :
  (2 <= length (images z))%nat -> 0 < weighted_length ->
  exists u, arc_segments energy z = Ok u /\
            length u = length (images z) /\
            nth 0 u 0 = 0 /\ nth (length (images z) - 1) u 0 = 1.
Proof.
  intros Hn Hpos.
  destruct (arc_segments_spec Hn) as (M & weights & HM & Hw & _ & Hu).
  assert (E : weights = segment_weights).
  { unfold segment_weights, max_abs_mean. now rewrite HM. }
  rewrite E in Hu. fold weighted_length in Hu.
  eexists. split; [exact Hu|].
  split; [now rewrite length_map, length_seq|].
  rewrite !nth_map_seq by lia.
  split; [simpl; lra|]. fold weighted_length. field. lra.
Qed.

(** A weight is positive exactly when the mean energy of its segment is not
    zero, provided the largest absolute mean energy is positive. *)
Lemma weight_positive (M m : R) : 0 < M -> m <> 0 -> 0 < sqrt (Rabs m / M).
Proof.
  intros HM Hm. apply sqrt_lt_R0, Rdiv_lt_0_compat; [|exact HM].
  now apply Rabs_pos_lt.
Qed.

Lemma weight_zero (M : R) : sqrt (Rabs 0 / M) = 0.
Proof. rewrite Rabs_R0. unfold Rdiv. now rewrite Rmult_0_l, sqrt_0. Qed.

Lemma arc_at_nonneg (weights : vec) (k : nat) :
  (forall i, 0 <= nth i weights 0) -> 0 <= arc_at weights k.
Proof. intros Hw. apply (arc_at_monotone weights 0 k Hw). lia. Qed.

Lemma arc_at_grows (weights : vec) (k m : nat) :
  (forall i, 0 <= nth i weights 0) ->
  0 < nth k weights 0 -> 0 < segment_length k -> (S k <= m)%nat ->
  0 < arc_at weights m.
Proof.
  intros Hw Hk Hd Hm.
  apply Rlt_le_trans with (arc_at weights (S k));
    [|now apply arc_at_monotone].
  cbn [arc_at]. pose proof (arc_at_nonneg weights k Hw).
  pose proof (Rmult_lt_0_compat _ _ Hk Hd). lra.
Qed.

Lemma arc_at_positive (weights : vec) (m : nat) :
  0 < arc_at weights m ->
  exists k, (k < m)%nat /\ 0 < nth k weights 0 * segment_length k.
Proof.
  induction m as [|m IH]; cbn [arc_at]; intros H; [lra|].
  destruct (Rlt_le_dec 0 (nth m weights 0 * segment_length m)) as [Hp|Hp].
  - exists m. split; [lia|exact Hp].
  - destruct IH as (k & Hk & Hpos); [lra|]. exists k. split; [lia|exact Hpos].
Qed.

(** A segment along which the parameter grows: its mean energy is not zero
    and its two images differ. *)
Definition proper_segment (k : nat) : Prop :=
  segment_mean k <> 0 /\ 0 < segment_length k.

Lemma max_abs_mean_positive (M : R) (k : nat) :
  amax (map Rabs (map segment_mean (seq 0 (length (images z) - 1)))) = Ok M ->
  (k < length (images z) - 1)%nat -> segment_mean k <> 0 -> 0 < M.
Proof.
  intros HM Hk Hne. apply amax_spec in HM. destruct HM as (_ & Hub).
  apply Rlt_le_trans with (Rabs (segment_mean k)); [now apply Rabs_pos_lt|].
  apply Hub. do 2 apply in_map. apply in_seq. lia.
Qed.

Lemma weighted_length_positive :
  (2 <= length (images z))%nat ->
  (exists k, (k < length (images z) - 1)%nat /\ proper_segment k) ->
  0 < weighted_length.
Proof.
  intros Hn (k & Hk & Hne & Hd).
  destruct (arc_segments_spec Hn) as (M & weights & HM & Hw & _ & _).
  assert (E : weights = segment_weights).
  { unfold segment_weights, max_abs_mean. now rewrite HM. }
  unfold weighted_length. rewrite <- E.
  apply (arc_at_grows weights k).
  - intros i. rewrite Hw, <- map_map. apply nth_map_sqrt_nonneg.
  - rewrite Hw, nth_map_seq by exact Hk.
    apply weight_positive; [|exact Hne].
    exact (max_abs_mean_positive M k HM Hk Hne).
  - exact Hd.
  - lia.
Qed.

(** C6. In energy mode, for a chain of at least two images with equally many
    coordinates each, on which some segment has a mean energy that is not
    zero: the weight of a segment is the square root of the absolute mean of
    its two end-point energies divided by the largest such absolute mean,
    which is positive; the parameter sequence starts at 0 and grows from
    image [k] to image [k + 1] by the weight of that segment times the
    Euclidean distance of the two images, so it never decreases; its last
    element is positive exactly when some segment has both a non-zero mean
    energy and a non-zero length; and then the sequence handed to the spline
    fit is that sequence divided by its last element: it starts at 0, ends at
    1, lies in [0, 1] and never decreases; from image [k] to image [k + 1] it
    increases when the segment has a non-zero mean energy and a non-zero
    length, and stays the same otherwise.  The two cases left out, every mean
    energy zero and a path of weighted length zero, are divisions by zero,
    which numpy answers with [nan]. *)
Theorem energy_weighted_parameters :
  (2 <= length (images z))%nat ->
  (exists k, (k < length (images z) - 1)%nat /\ segment_mean k <> 0) ->
  exists means weights raw,
    mean_energies energy z = Ok means /\
    weight_function means = Ok weights /\
    arc_loop z weights = Ok raw /\
    length weights = (length (images z) - 1)%nat /\
    length raw = length (images z) /\
    (forall k, (k < length (images z) - 1)%nat ->
               nth k means 0 = segment_mean k) /\
    (exists M,
        0 < M /\
        (exists k, (k < length (images z) - 1)%nat /\
                   M = Rabs (segment_mean k)) /\
        (forall k, (k < length (images z) - 1)%nat ->
                   Rabs (segment_mean k) <= M) /\
        (forall k, (k < length (images z) - 1)%nat ->
                   nth k weights 0 = sqrt (Rabs (segment_mean k) / M))) /\
    (forall k, (k < length (images z) - 1)%nat ->
               0 <= nth k weights 0 <= 1 /\
               (0 < nth k weights 0 <-> segment_mean k <> 0)) /\
    nth 0 raw 0 = 0 /\
    (forall k, (k < length (images z) - 1)%nat ->
               nth (S k) raw 0
               = nth k raw 0 + nth k weights 0 * segment_length k) /\
    (forall k, (k < length (images z) - 1)%nat ->
               nth k raw 0 <= nth (S k) raw 0) /\
    (0 < nth (length (images z) - 1) raw 0 <->
     exists k, (k < length (images z) - 1)%nat /\ proper_segment k) /\
    (0 < nth (length (images z) - 1) raw 0 ->
     exists u,
       arc_segments energy z = Ok u /\
       length u = length (images z) /\
       (forall k, (k < length (images z))%nat ->
                  nth k u 0
                  = nth k raw 0 / nth (length (images z) - 1) raw 0) /\
       nth 0 u 0 = 0 /\
       nth (length (images z) - 1) u 0 = 1 /\
       (forall k, (k < length (images z) - 1)%nat ->
                  nth k u 0 <= nth (S k) u 0) /\
       (forall k, (k < length (images z))%nat -> 0 <= nth k u 0 <= 1) /\
       (forall k, (k < length (images z) - 1)%nat ->
                  proper_segment k -> nth k u 0 < nth (S k) u 0) /\
       (forall k, (k < length (images z) - 1)%nat ->
                  segment_mean k = 0 \/ segment_length k = 0 ->
                  nth k u 0 = nth (S k) u 0)).
Proof.
  intros Hn (k0 & Hk0 & Hne0). set (n := length (images z)) in *.
  destruct (arc_segments_spec Hn) as (M & weights & HM & Hw & Hwf & Hu).
  fold n in HM, Hw, Hwf, Hu.
  assert (HMpos : 0 < M) by exact (max_abs_mean_positive M k0 HM Hk0 Hne0).
  assert (Hwlen : length weights = (n - 1)%nat)
    by (rewrite Hw, length_map, length_seq; reflexivity).
  assert (Hwpos : forall i, 0 <= nth i weights 0).
  { intros i. rewrite Hw, <- map_map. apply nth_map_sqrt_nonneg. }
  assert (Hwk : forall k, (k < n - 1)%nat ->
                nth k weights 0 = sqrt (Rabs (segment_mean k) / M))
    by (intros k Hk; rewrite Hw; now apply nth_map_seq).
  assert (Hub : forall k, (k < n - 1)%nat -> Rabs (segment_mean k) <= M).
  { intros k Hk. apply amax_spec in HM. destruct HM as (_ & Hub).
    apply Hub. do 2 apply in_map. apply in_seq. lia. }
  assert (Hwiff : forall k, (k < n - 1)%nat ->
                  (0 < nth k weights 0 <-> segment_mean k <> 0)).
  { intros k Hk. rewrite (Hwk k Hk). split.
    - intros Hp E. rewrite E, weight_zero in Hp. lra.
    - now apply weight_positive. }
  assert (Hraw : forall k, (k < n)%nat ->
                 nth k (map (arc_at weights) (seq 0 n)) 0 = arc_at weights k)
    by (intros k Hk; now apply nth_map_seq).
  assert (Hlast : 0 < arc_at weights (n - 1) <->
                  exists k, (k < n - 1)%nat /\ proper_segment k).
  { split.
    - intros Hp. destruct (arc_at_positive weights (n - 1) Hp) as (k & Hk & Hprod).
      exists k. split; [exact Hk|].
      pose proof (Hwpos k) as Hwk0. pose proof (segment_length_nonneg k) as Hd0.
      assert (Hwp : 0 < nth k weights 0) by nra.
      assert (Hdp : 0 < segment_length k) by nra.
      split; [now apply Hwiff|exact Hdp].
    - intros (k & Hk & Hne & Hd).
      apply (arc_at_grows weights k); [exact Hwpos| |exact Hd|lia].
      now apply Hwiff. }
  exists (map segment_mean (seq 0 (n - 1))), weights,
    (map (arc_at weights) (seq 0 n)).
  split; [apply mean_energies_spec; fold n; lia|].
  split; [exact Hwf|].
  split; [apply arc_loop_spec; fold n; lia|].
  split; [exact Hwlen|].
  split; [now rewrite length_map, length_seq|].
  split; [intros k Hk; now apply nth_map_seq|].
  split.
  { exists M. split; [exact HMpos|].
    pose proof HM as HM'. apply amax_spec in HM'. destruct HM' as (Hin & _).
    split; [|split].
    - apply in_map_iff in Hin. destruct Hin as (e & <- & He).
      apply in_map_iff in He. destruct He as (k & <- & Hk).
      apply in_seq in Hk. exists k. split; [lia|reflexivity].
    - exact Hub.
    - exact Hwk. }
  split.
  { intros k Hk. split; [split; [apply Hwpos|]|now apply Hwiff].
    rewrite (Hwk k Hk), <- sqrt_1. apply sqrt_le_1_alt.
    apply (Rmult_le_reg_r M); [exact HMpos|].
    unfold Rdiv. rewrite Rmult_assoc, Rinv_l by lra.
    pose proof (Hub k Hk). lra. }
  split; [now rewrite Hraw by lia|].
  split; [intros k Hk; now rewrite !Hraw by lia|].
  split.
  { intros k Hk. rewrite !Hraw by lia. now apply arc_at_step. }
  rewrite Hraw by lia. split; [exact Hlast|]. intros Hpos.
  exists (map (fun k => arc_at weights k / arc_at weights (n - 1)) (seq 0 n)).
  assert (Hnth : forall k, (k < n)%nat ->
                 nth k (map (fun k => arc_at weights k / arc_at weights (n - 1))
                          (seq 0 n)) 0
                 = arc_at weights k / arc_at weights (n - 1))
    by (intros k Hk; now apply nth_map_seq).
  split; [exact Hu|].
  split; [now rewrite length_map, length_seq|].
  split; [intros k Hk; now rewrite Hnth, Hraw by lia|].
  split; [rewrite Hnth by lia; simpl; lra|].
  split; [rewrite Hnth by lia; field; lra|].
  split.
  { intros k Hk. rewrite !Hnth by lia.
    apply Rmult_le_compat_r; [left; now apply Rinv_0_lt_compat|].
    now apply arc_at_step. }
  split.
  { intros k Hk. rewrite Hnth by lia.
    pose proof (arc_at_monotone weights 0 k Hwpos ltac:(lia)) as H0.
    pose proof (arc_at_monotone weights k (n - 1) Hwpos ltac:(lia)) as H1.
    simpl in H0. split.
    + apply Rmult_le_pos; [exact H0|left; now apply Rinv_0_lt_compat].
    + apply (Rmult_le_reg_r (arc_at weights (n - 1))); [exact Hpos|].
      unfold Rdiv. rewrite Rmult_assoc, Rinv_l by lra. lra. }
  split.
  - intros k Hk (Hne & Hd). rewrite !Hnth by lia.
    apply Rmult_lt_compat_r; [now apply Rinv_0_lt_compat|].
    cbn [arc_at].
    assert (Hwp : 0 < nth k weights 0) by now apply Hwiff.
    pose proof (Rmult_lt_0_compat _ _ Hwp Hd). lra.
  - intros k Hk Hz. rewrite !Hnth by lia. f_equal. cbn [arc_at].
    destruct Hz as [Hz|Hz].
    + rewrite (Hwk k Hk), Hz, weight_zero. lra.
    + rewrite Hz. lra.
Qed.

End EnergyWeighted.

(** *** Reshaping *)

Lemma nth_nil_zero (j : nat) : nth j (@nil R) 0 = 0.
Proof. now destruct j. Qed.

Lemma nth_column (a : list vec) (j d : nat) :
  nth d (map (fun row => nth j row 0) a) 0 = nth j (nth d a []) 0.
Proof.
  rewrite <- (nth_nil_zero j) at 1.
  now rewrite (map_nth (fun row => nth j row 0) a [] d).
Qed.

Lemma transpose_length (ncols : nat) (a : list vec) :
  length (transpose ncols a) = ncols.
Proof. unfold transpose. now rewrite length_map, length_seq. Qed.

Lemma transpose_row (ncols : nat) (a : list vec) (j : nat) :
  (j < ncols)%nat ->
  nth j (transpose ncols a) [] = map (fun row => nth j row 0) a.
Proof.
  intros H. unfold transpose.
  rewrite (nth_indep _ [] (map (fun row => nth 0 row 0) a))
    by now rewrite length_map, length_seq.
  rewrite (map_nth (fun j => map (fun row => nth j row 0) a) (seq 0 ncols) 0%nat j).
  now rewrite seq_nth.
Qed.

Lemma transpose_rows_length (ncols : nat) (a : list vec) (r : vec) :
  In r (transpose ncols a) -> length r = length a.
Proof.
  unfold transpose. intros H. apply in_map_iff in H.
  destruct H as (j & <- & _). apply length_map.
Qed.

Lemma flatten_length (rows : list vec) (L : nat) :
  (forall r, In r rows -> length r = L) ->
  length (flatten rows) = (length rows * L)%nat.
Proof.
  unfold flatten. induction rows as [|r rows IH]; intros H; simpl; [reflexivity|].
  rewrite length_app, (H r (or_introl eq_refl)), IH; [reflexivity|].
  intros r' Hr'. apply H. now right.
Qed.

Lemma rows_of_flatten (rows : list vec) (L : nat) :
  (forall r, In r rows -> length r = L) ->
  rows_of (length rows) L (flatten rows) = rows.
Proof.
  unfold flatten. induction rows as [|r rows IH]; intros H; simpl; [reflexivity|].
  assert (Hr : length r = L) by (apply H; now left).
  rewrite firstn_app, skipn_app, <- Hr, firstn_all, skipn_all, Nat.sub_diag.
  simpl. rewrite app_nil_r, Hr, IH; [reflexivity|].
  intros r' Hr'. apply H. now right.
Qed.

Lemma reshape_flatten (rows : list vec) (L : nat) :
  (1 <= L)%nat -> (forall r, In r rows -> length r = L) ->
  reshape (flatten rows) L = Ok rows.
Proof.
  intros HL H. unfold reshape.
  destruct (Nat.eqb_spec L 0); [lia|].
  rewrite (flatten_length rows L H), Nat.Div0.mod_mul, Nat.div_mul by lia.
  simpl. now rewrite rows_of_flatten.
Qed.

Lemma linspace01_length (n : nat) : length (linspace01 n) = n.
Proof. unfold linspace01. now rewrite length_map, length_seq. Qed.

Lemma linspace01_first (n : nat) : (1 <= n)%nat -> nth 0 (linspace01 n) 0 = 0.
Proof.
  intros H. unfold linspace01. rewrite nth_map_seq by lia.
  simpl. unfold Rdiv. apply Rmult_0_l.
Qed.

Lemma linspace01_last (n : nat) :
  (2 <= n)%nat -> nth (n - 1) (linspace01 n) 0 = 1.
Proof.
  intros H. unfold linspace01. rewrite nth_map_seq by lia.
  apply Rdiv_diag, not_0_INR. lia.
Qed.

(** *** Resampling *)

Section Resampling.

Variable energy : vec -> R.
Variable tck : Type.
Variable splprep : list vec -> option vec -> result (tck * vec).
Variable splev : vec -> tck -> list vec.

(** What is assumed of the spline routines when the fit is made with zero
    smoothing: the parameters returned are those passed in, or, when none are
    passed, one per data point, running from 0 to 1; [splev] gives one array
    per dimension, as long as the mesh; and at a mesh value that equals the
    parameter of a data point the curve passes through that point. *)
Definition interpolating : Prop :=
  forall x uo t u,
    splprep x uo = Ok (t, u) ->
    (forall u0, uo = Some u0 -> u = u0) /\
    (uo = None ->
     length u = length (hd [] x) /\
     nth 0 u 0 = 0 /\ nth (length u - 1) u 0 = 1) /\
    (forall mesh,
        length (splev mesh t) = length x /\
        (forall d, (d < length x)%nat ->
                   length (nth d (splev mesh t) []) = length mesh) /\
        (forall d i k,
            (d < length x)%nat -> (i < length mesh)%nat ->
            (k < length u)%nat ->
            nth i mesh 0 = nth k u 0 ->
            nth i (nth d (splev mesh t) []) 0 = nth k (nth d x []) 0)).

(** The parameter argument of the call of [splprep] in each mode. *)
Definition spline_parameters (z : chain) (uo : option vec) : Prop :=
  (param z = "equal"%string /\ uo = None) \/
  (param z = "energy"%string /\
   exists u, arc_segments energy z = Ok u /\ uo = Some u).

Variable z : chain.

Hypothesis fit_exact : interpolating.
Hypothesis two_images : (2 <= length (images z))%nat.
Hypothesis some_coords : (1 <= coords_length z)%nat.
Hypothesis same_length :
  forall img, In img (images z) -> length img = coords_length z.
Hypothesis known_mode :
  param z = "equal"%string \/
  (param z = "energy"%string /\
   exists k, (k < length (images z) - 1)%nat /\ proper_segment energy z k).
Hypothesis fit_succeeds :
  forall uo, spline_parameters z uo ->
             exists t u,
               splprep (transpose (coords_length z) (images z)) uo = Ok (t, u).

Lemma transposed_points :
  length (hd [] (transpose (coords_length z) (images z))) = length (images z).
Proof.
  unfold transpose. destruct (coords_length z) as [|L]; [lia|].
  simpl. apply length_map.
Qed.

(** The fit is the curve [splprep] returns for the parameters of the mode,
    and its parameters start at 0 and end at 1. *)
Lemma fit_spec :
  exists t uo u,
    spline_parameters z uo /\
    fit energy tck splprep z (transpose (coords_length z) (images z))
    = Ok (Some t) /\
    splprep (transpose (coords_length z) (images z)) uo = Ok (t, u) /\
    length u = length (images z) /\
    nth 0 u 0 = 0 /\ nth (length (images z) - 1) u 0 = 1.
Proof.
  unfold fit. destruct known_mode as [Hm|(Hm & Hproper)].
  - assert (Hp : spline_parameters z None) by (left; now split).
    destruct (fit_succeeds None Hp) as (t & u & Hs).
    exists t, None, u. rewrite Hm. cbn [String.eqb Ascii.eqb Bool.eqb].
    rewrite Hs. cbn [bind fst].
    destruct (fit_exact _ _ _ _ Hs) as (_ & Hu & _).
    destruct (Hu eq_refl) as (Hlen & H0 & H1).
    rewrite transposed_points in Hlen. rewrite Hlen in H1. now repeat split.
  - pose proof (weighted_length_positive energy z same_length two_images Hproper)
      as Hpos.
    destruct (arc_segments_ends energy z same_length two_images Hpos)
      as (u0 & Harc & Hlen & H0 & H1).
    assert (Hp : spline_parameters z (Some u0)).
    { right. split; [exact Hm|]. now exists u0. }
    destruct (fit_succeeds (Some u0) Hp) as (t & u & Hs).
    exists t, (Some u0), u. rewrite Hm. cbn [String.eqb Ascii.eqb Bool.eqb].
    rewrite Harc. cbn [bind]. rewrite Hs. cbn [bind fst].
    destruct (fit_exact _ _ _ _ Hs) as (Hu & _).
    rewrite (Hu u0 eq_refl). now repeat split.
Qed.

(** C7. For a chain of at least two images with the same positive number of
    coordinates each, in either mode (in energy mode with a segment of
    non-zero mean energy and non-zero length), with spline routines that
    interpolate and a fit that succeeds: [reparametrize] fits a curve through
    the images, with the parameters of the mode (none in equal mode, the
    energy-weighted ones in energy mode), and returns the chain whose [k]-th
    image is that curve evaluated at the [k]-th of [N] equally spaced
    parameter values [k / (N - 1)] from 0 to 1, [N] being the number of
    images.  The chain returned has the same mode, the same number of images
    and the same number of coordinates, and its first and last images are the
    first and last images [reparametrize] was given. *)
Theorem reparametrize_keeps_endpoints :
  exists z' uo t u,
    spline_parameters z uo /\
    splprep (transpose (coords_length z) (images z)) uo = Ok (t, u) /\
    reparametrize energy tck splprep splev z = Ok z' /\
    images z'
    = transpose (length (images z))
        (splev (linspace01 (length (images z))) t) /\
    (forall k d, (k < length (images z))%nat -> (d < coords_length z)%nat ->
                 nth d (nth k (images z') []) 0
                 = nth k (nth d (splev (linspace01 (length (images z))) t) [])
                     0) /\
    (forall k, (k < length (images z))%nat ->
               nth k (linspace01 (length (images z))) 0
               = INR k / INR (length (images z) - 1)) /\
    param z' = param z /\
    length (images z') = length (images z) /\
    length (coords z') = length (coords z) /\
    (forall img, In img (images z') -> length img = coords_length z) /\
    nth 0 (images z') [] = nth 0 (images z) [] /\
    nth (length (images z) - 1) (images z') []
    = nth (length (images z) - 1) (images z) [].
Proof.
  set (n := length (images z)). set (L := coords_length z).
  destruct fit_spec as (t & uo & u & Hpar & Hfit & Hs & Hlen & H0 & H1).
  fold n in Hlen, H1. fold L in Hfit, Hs.
  destruct (fit_exact _ _ _ _ Hs) as (_ & _ & Hev).
  destruct (Hev (linspace01 n)) as (Hdims & Hrows & Hpass).
  rewrite transpose_length in Hdims, Hrows, Hpass.
  rewrite linspace01_length in Hrows, Hpass.
  set (new_points := splev (linspace01 n) t) in *.
  assert (Hnew : forall r, In r (transpose n new_points) -> length r = L)
    by (intros r Hr; now rewrite (transpose_rows_length _ _ _ Hr)).
  assert (Hpoint : forall k, (k < n)%nat ->
                   nth k (linspace01 n) 0 = nth k u 0 ->
                   nth k (transpose n new_points) [] = nth k (images z) []).
  { intros k Hk Hmesh. rewrite transpose_row by exact Hk.
    apply (nth_ext _ _ 0 0).
    - rewrite length_map. transitivity L; [exact Hdims|].
      symmetry. apply same_length, nth_In. exact Hk.
    - intros d Hd. rewrite length_map in Hd.
      assert (Hd' : (d < L)%nat) by (rewrite <- Hdims; exact Hd).
      rewrite nth_column, (Hpass d k k) by (try lia; exact Hmesh).
      rewrite transpose_row by exact Hd'. apply nth_column. }
  exists {| param := param z; images := transpose n new_points |}, uo, t, u.
  split; [exact Hpar|].
  split; [exact Hs|].
  split.
  { unfold reparametrize, coords.
    rewrite (reshape_flatten (images z) (coords_length z) some_coords same_length).
    cbn [bind]. fold L. rewrite Hfit. cbn [bind]. fold n.
    rewrite linspace01_length. fold new_points.
    unfold set_coords. fold L.
    rewrite (reshape_flatten _ L some_coords Hnew). cbn [bind].
    fold n. now rewrite transpose_length, Nat.eqb_refl. }
  cbn [param images]. split; [reflexivity|].
  split.
  { intros k d Hk Hd. rewrite transpose_row by exact Hk. apply nth_column. }
  split.
  { intros k Hk. unfold linspace01. now apply nth_map_seq. }
  split; [reflexivity|].
  split; [apply transpose_length|].
  split.
  { unfold coords. cbn [images].
    rewrite (flatten_length _ L Hnew), (flatten_length _ L same_length).
    now rewrite transpose_length. }
  split; [exact Hnew|].
  split; apply Hpoint; try (unfold n; lia).
  - rewrite linspace01_first by (unfold n; lia). now rewrite H0.
  - rewrite linspace01_last by exact two_images. now rewrite H1.
Qed.

End Resampling.

(** Two images at distance 5 on a flat energy surface. *)
Definition flat_energy (img : vec) : R := 2.

Definition two_images : chain :=
  {| param := "energy"; images := [[0; 0]; [3; 4]] |}.

(** Three images on a line, at 0, 1 and 2, on a surface whose energy is 1 at
    the first two and 7 at the third: the mean energies of the two segments are
    1 and 4, their weights 1/2 and 1, and the middle image gets the parameter
    1/3 where equal weights would give 1/2. *)
Definition sloped_energy (img : vec) : R :=
  1 + 3 * nth 0 img 0 * (nth 0 img 0 - 1).

Definition three_images : chain :=
  {| param := "energy"; images := [[0]; [1]; [2]] |}.

Lemma three_images_same_length :
  forall img, In img (images three_images) ->
              length img = coords_length three_images.
Proof. intros img [<-|[<-|[<-|[]]]]; reflexivity. Qed.

Lemma three_images_means :
  segment_mean sloped_energy three_images 0 = 1 /\
  segment_mean sloped_energy three_images 1 = 4.
Proof.
  unfold segment_mean, sloped_energy, image_at, three_images.
  cbn [images nth]. split; lra.
Qed.

Lemma three_images_lengths :
  segment_length three_images 0 = 1 /\ segment_length three_images 1 = 1.
Proof.
  unfold segment_length, norm, image_at, three_images.
  cbn [images nth zip_with map sum fold_right].
  split.
  - replace ((1 - 0) * (1 - 0) + 0) with 1 by lra. apply sqrt_1.
  - replace ((2 - 1) * (2 - 1) + 0) with 1 by lra. apply sqrt_1.
Qed.

Lemma sqrt_quarter : sqrt (1 / 4) = 1 / 2.
Proof.
  replace (1 / 4) with ((1 / 2) * (1 / 2)) by lra. apply sqrt_square. lra.
Qed.

Lemma energy_weighted_parameters_witness :
  exists u, arc_segments sloped_energy three_images = Ok u /\
            nth 0 u 0 = 0 /\ nth 1 u 0 = 1 / 3 /\ nth 2 u 0 = 1.
Proof.
  destruct three_images_means as (Hm0 & Hm1).
  destruct three_images_lengths as (Hd0 & Hd1).
  destruct (energy_weighted_parameters sloped_energy three_images
              three_images_same_length (le_S 2 2 (le_n 2)))
    as (means & weights & raw & _ & _ & _ & _ & _ & _ & HM & _ & H0 & Hinc
        & _ & _ & Hu).
  { exists 0%nat. split; [simpl; lia|]. rewrite Hm0. lra. }
  destruct HM as (M & _ & (k & Hk & HMk) & Hub & Hw).
  assert (HM4 : M = 4).
  { pose proof (Hub 1%nat ltac:(simpl; lia)) as H4.
    rewrite Hm1, Rabs_pos_eq in H4 by lra.
    simpl in Hk.
    destruct k as [|[|k]]; [| |lia].
    - rewrite Hm0, Rabs_pos_eq in HMk by lra. lra.
    - rewrite Hm1, Rabs_pos_eq in HMk by lra. exact HMk. }
  assert (Hw0 : nth 0 weights 0 = 1 / 2).
  { rewrite (Hw 0%nat) by (simpl; lia).
    rewrite Hm0, HM4, Rabs_pos_eq by lra. apply sqrt_quarter. }
  assert (Hw1 : nth 1 weights 0 = 1).
  { rewrite (Hw 1%nat) by (simpl; lia).
    rewrite Hm1, HM4, Rabs_pos_eq by lra.
    replace (4 / 4) with 1 by lra. apply sqrt_1. }
  assert (Hr1 : nth 1 raw 0 = 1 / 2).
  { rewrite (Hinc 0%nat) by (simpl; lia). rewrite H0, Hw0, Hd0. lra. }
  assert (Hr2 : nth 2 raw 0 = 3 / 2).
  { rewrite (Hinc 1%nat) by (simpl; lia). rewrite Hr1, Hw1, Hd1. lra. }
  change (length (images three_images) - 1)%nat with 2%nat in Hu.
  destruct Hu as (u & Hu1 & _ & Hdiv & Hu0 & Hu2 & _); [rewrite Hr2; lra|].
  exists u. split; [exact Hu1|]. split; [exact Hu0|]. split; [|exact Hu2].
  rewrite (Hdiv 1%nat) by (simpl; lia). rewrite Hr1, Hr2. lra.
Defined.

(** *** A table-driven interpolant

    The simplest routines that meet [interpolating]: the fit stores the
    parameters next to the data and evaluation looks the parameter up. *)

Definition table : Type := (vec * list vec)%type.

Fixpoint lookup (u row : vec) (s : R) : R :=
  match u, row with
  | a :: u', y :: row' => if Req_dec_T a s then y else lookup u' row' s
  | _, _ => 0
  end.

Fixpoint distinct (u : vec) : bool :=
  match u with
  | [] => true
  | a :: u' =>
      negb (existsb (fun b => if Req_dec_T a b then true else false) u')
      && distinct u'
  end.

Definition table_splprep (x : list vec) (uo : option vec)
  : result (table * vec) :=
  match uo with
  | Some u => if distinct u then Ok ((u, x), u) else Raise ValueError
  | None =>
      let m := length (hd [] x) in
      if Nat.leb 2 m && distinct (linspace01 m)
      then Ok ((linspace01 m, x), linspace01 m)
      else Raise TypeError
  end.

Definition table_splev (mesh : vec) (t : table) : list vec :=
  map (fun row => map (lookup (fst t) row) mesh) (snd t).

Lemma lookup_hit (u : vec) :
  forall (row : vec) (k : nat),
    distinct u = true -> (k < length u)%nat ->
    lookup u row (nth k u 0) = nth k row 0.
Proof.
  induction u as [|a u IH]; intros row k Hd Hk; [simpl in Hk; lia|].
  simpl in Hd. apply andb_true_iff in Hd. destruct Hd as (Ha & Hd).
  destruct row as [|y row]; [now destruct k|].
  destruct k as [|k]; simpl.
  - destruct (Req_dec_T a a); [reflexivity|contradiction].
  - destruct (Req_dec_T a (nth k u 0)) as [E|_].
    + exfalso. apply negb_true_iff in Ha.
      assert (Hex : existsb (fun b => if Req_dec_T a b then true else false) u
                    = true).
      { apply existsb_exists. exists (nth k u 0). split.
        - apply nth_In. simpl in Hk. lia.
        - destruct (Req_dec_T a (nth k u 0)); [reflexivity|contradiction]. }
      congruence.
    + apply IH; [exact Hd|simpl in Hk; lia].
Qed.

Lemma table_interpolating : interpolating table table_splprep table_splev.
Proof.
  intros x uo t u Hs.
  assert (H : distinct u = true /\ t = (u, x) /\
              (forall u0, uo = Some u0 -> u = u0) /\
              (uo = None -> u = linspace01 (length (hd [] x)) /\
                            (2 <= length (hd [] x))%nat)).
  { unfold table_splprep in Hs. destruct uo as [u0|].
    - destruct (distinct u0) eqn:E; [|discriminate].
      injection Hs as <- <-. repeat split; congruence.
    - destruct (Nat.leb 2 (length (hd [] x))) eqn:E1; [|discriminate].
      destruct (distinct (linspace01 (length (hd [] x)))) eqn:E2; [|discriminate].
      simpl in Hs. injection Hs as <- <-. apply Nat.leb_le in E1.
      repeat split; congruence. }
  destruct H as (Hd & -> & Hsome & Hnone).
  split; [exact Hsome|]. split.
  - intros E. destruct (Hnone E) as (-> & Hm).
    rewrite linspace01_length.
    repeat split; [apply linspace01_first; lia|now apply linspace01_last].
  - intros mesh. unfold table_splev. cbn [fst snd].
    assert (Hrow : forall d, (d < length x)%nat ->
                    nth d (map (fun row => map (lookup u row) mesh) x) []
                    = map (lookup u (nth d x [])) mesh).
    { intros d Hd'.
      rewrite (nth_indep _ [] (map (lookup u []) mesh))
        by now rewrite length_map.
      apply (map_nth (fun row => map (lookup u row) mesh)). }
    split; [apply length_map|]. split.
    + intros d Hd'. now rewrite Hrow, length_map.
    + intros d i k Hd' Hi Hk Hmesh. rewrite Hrow by exact Hd'.
      rewrite (nth_indep _ 0 (lookup u (nth d x []) 0))
        by now rewrite length_map.
      rewrite map_nth, Hmesh. now apply lookup_hit.
Qed.

(** Four images in the plane. *)
Definition four_images (mode : string) : chain :=
  {| param := mode; images := [[0; 0]; [1; 0]; [2; 1]; [3; 1]] |}.

Lemma distinct_linspace01_4 : distinct (linspace01 4) = true.
Proof.
  unfold linspace01. cbn [seq map distinct existsb Nat.sub INR].
  repeat (match goal with
          | |- context [Req_dec_T ?a ?b] =>
              destruct (Req_dec_T a b); [exfalso; lra|]
          end).
  reflexivity.
Qed.

Lemma reparametrize_keeps_endpoints_witness :
  exists z' t,
    table_splprep (transpose 2 (images (four_images "equal"))) None
    = Ok (t, linspace01 4) /\
    reparametrize flat_energy table table_splprep table_splev
      (four_images "equal") = Ok z' /\
    images z' = transpose 4 (table_splev (linspace01 4) t) /\
    nth 0 (images z') [] = [0; 0] /\ nth 3 (images z') [] = [3; 1].
Proof.
  destruct (reparametrize_keeps_endpoints flat_energy table table_splprep
              table_splev (four_images "equal"))
    as (z' & uo & t & u & Hpar & Hs & Hz & Himg & _ & _ & _ & _ & _ & _
        & H0 & H1).
  - exact table_interpolating.
  - unfold four_images. simpl. lia.
  - unfold four_images, coords_length. simpl. lia.
  - intros img [<-|[<-|[<-|[<-|[]]]]]; reflexivity.
  - left. reflexivity.
  - intros uo [(_ & ->)|(Hm & _)]; [|discriminate Hm].
    unfold table_splprep.
    change (length (hd [] (transpose (coords_length (four_images "equal"))
                             (images (four_images "equal"))))) with 4%nat.
    rewrite distinct_linspace01_4. simpl. eauto.
  - destruct Hpar as [(_ & ->)|(Hm & _)]; [|discriminate Hm].
    change (coords_length (four_images "equal")) with 2%nat in Hs.
    assert (Hu : u = linspace01 4).
    { unfold table_splprep in Hs.
      change (length (hd [] (transpose 2 (images (four_images "equal")))))
        with 4%nat in Hs.
      rewrite distinct_linspace01_4 in Hs. cbn [Nat.leb andb] in Hs.
      congruence. }
    rewrite Hu in Hs.
    exists z', t. repeat split; assumption.
Defined.

(** C8, as the code has it.  The constructor stores whatever mode it is
    given and never fails.  A mode other than "energy" and "equal" is met
    only in [reparametrize], which then never returns: once the coordinates
    have been reshaped it stops at the evaluation of the spline, where [tck]
    was never assigned. *)
Theorem init_accepts_any_mode (imgs : list vec) (mode : string) :
  init imgs mode = Ok {| param := mode; images := imgs |} /\
  (forall energy tck splprep splev z,
      param z <> "energy"%string -> param z <> "equal"%string ->
      (forall z', reparametrize energy tck splprep splev z <> Ok z') /\
      (forall rows,
          reshape (coords z) (coords_length z) = Ok rows ->
          reparametrize energy tck splprep splev z
          = Raise (UnboundLocalError "tck"))).
Proof.
  split; [reflexivity|].
  intros energy tck splprep splev z Hen Heq.
  apply String.eqb_neq in Hen, Heq.
  assert (Hfit : forall x, fit energy tck splprep z x = Ok None)
    by (intros x; unfold fit; now rewrite Hen, Heq).
  split.
  - intros z'. unfold reparametrize.
    destruct (reshape (coords z) (coords_length z)); cbn [bind];
      [rewrite Hfit; cbn [bind]|]; discriminate.
  - intros rows Hrows. unfold reparametrize.
    rewrite Hrows. cbn [bind]. now rewrite Hfit.
Qed.

(** A chain built with the unknown mode "linear" is accepted, and the first
    reparametrization ends in an unbound local variable. *)
Lemma unknown_mode_fails_late :
  init [[0; 0]; [1; 0]; [2; 1]; [3; 1]] "linear" = Ok (four_images "linear") /\
  reparametrize flat_energy table table_splprep table_splev
    (four_images "linear") = Raise (UnboundLocalError "tck").
Proof.
  split; [reflexivity|].
  unfold reparametrize, coords.
  change (coords_length (four_images "linear")) with 2%nat.
  rewrite (reshape_flatten (images (four_images "linear")) 2).
  - reflexivity.
  - lia.
  - intros img [<-|[<-|[<-|[<-|[]]]]]; reflexivity.
Qed.

End SimpleZTSFacts.

(** ** StringOptimizer: bounds, failures and the countdown in general *)

Module StringOptimizerMore.

Import Py Np StringOptimizer StringOptimizerSetup PyFacts StringOptimizerFacts.

(** Two 1-d arrays that numpy can combine element-wise. *)
Definition broadcastable (u v : vec) : bool :=
  Nat.eqb (length u) (length v) || Nat.eqb (length u) 1 || Nat.eqb (length v) 1.

(** The number of fully grown cycles in a run. *)
Definition grown_count (cycles : list (geometry * bool)) : Z :=
  Z.of_nat (length (filter (fun c => fully_grown (fst c)) cycles)).

Lemma broadcast_raises (f : R -> R -> R) (u v : vec) (e : exn) :
  broadcast f u v = Raise e <-> broadcastable u v = false /\ e = ValueError.
Proof.
  unfold broadcast, broadcastable.
  destruct (Nat.eqb (length u) (length v)); cbn [orb].
  - split; [discriminate|intros [H _]; discriminate].
  - destruct u as [|x [|x' u]]; destruct v as [|y [|y' v]]; cbn;
      (split; [intros H; try discriminate; injection H as <-; now split
              |intros [H ->]; try discriminate; reflexivity]).
Qed.

Lemma index_minus_one_raises {A : Type} (l : list A) (e : exn) :
  index l (-1) = Raise e <-> l = [] /\ e = IndexError.
Proof.
  destruct l as [|a l].
  - cbn. split; [intros [= <-]; now split|intros [_ ->]; reflexivity].
  - assert (H : a :: l <> []) by discriminate.
    rewrite (SimpleZTSFacts.index_minus_one (a :: l) a H).
    split; [discriminate|intros [Hl _]; discriminate].
Qed.

Lemma index_minus_one_ok {A : Type} (l : list A) (a : A) :
  index l (-1) = Ok a -> l <> [].
Proof. intros H ->. discriminate. Qed.

(** X1. Let [max_step] be non-negative and [gamma] non-zero, and let the
    cycle be a warm-up cycle (the first one, or one after the string changed
    size) or the forces of the previous cycle be not all zero, so that no
    division by zero occurs.  Then no component of the step [optimize] returns
    exceeds [max_step] in absolute value. *)
Theorem optimize_step_bounded (procrustes : geometry -> geometry)
  (st st' : optimizer) (g : geometry) (step : vec) :
  0 <= max_step st ->
  gamma st <> 0 ->
  (cur_cycle st = 0%Z \/ string_size_changed st g = true \/
   exists prev_forces, index (forces_hist st) (-1) = Ok prev_forces /\
                       0 < norm prev_forces) ->
  optimize procrustes st g = Ok (step, st') ->
  Forall (fun x => Rabs x <= max_step st) step.
Proof.
  intros Hm _ _ H. unfold optimize in H.
  destruct (unrestricted_step procrustes st g) as [[pre st1]|e];
    [|discriminate].
  cbn [bind fst snd] in H. injection H as <- _. rewrite restrict_as_map.
  apply Forall_map, Forall_forall. intros x _. now apply clamp_bound.
Qed.

Lemma optimize_step_bounded_witness :
  Forall (fun x => Rabs x <= default_max_step)
    (restrict_step_components default_max_step
       (zip_with Rplus (div_scalar [1; 0] default_gamma)
          (scale (Py.min (norm [1; 0] ^ 2 / norm [2; 0] ^ 2) 1) [1 / 10; 0]))).
Proof.
  apply (optimize_step_bounded (fun g => g) second_cycle
           (record_forces second_cycle (1 / 2) [1; 0]) second_geometry).
  - unfold second_cycle, default_max_step. simpl. lra.
  - exact default_gamma_nonzero.
  - right. right. exists [2; 0]. split; [reflexivity|exact norm_2_0_positive].
  - reflexivity.
Defined.

(** X2. For a non-negative [max_step], clipping never enlarges a component
    and never gives it the opposite sign. *)
Theorem restrict_step_components_shrinks (m : R) (steps : vec) (i : nat)
  (x y : R) :
  0 <= m ->
  nth_error steps i = Some x ->
  nth_error (restrict_step_components m steps) i = Some y ->
  Rabs y <= Rabs x /\ 0 <= x * y.
Proof.
  intros Hm Hx Hy. rewrite restrict_as_map, nth_error_map, Hx in Hy.
  injection Hy as <-. unfold clamp, sign.
  destruct (Rgt_dec (Rabs x) m) as [Hbig|_].
  - destruct (Rlt_dec x 0); [|destruct (Rlt_dec 0 x)].
    + replace (-1 * m) with (- m) by lra.
      rewrite Rabs_Ropp, (Rabs_pos_eq m) by lra. split; [lra|nra].
    + rewrite Rmult_1_l, (Rabs_pos_eq m) by lra. split; [lra|nra].
    + rewrite Rmult_0_l, Rabs_R0. split; [apply Rabs_pos|lra].
  - split; [lra|]. pose proof (Rle_0_sqr x) as H. unfold Rsqr in H. lra.
Qed.

Lemma restrict_step_components_shrinks_witness :
  Rabs (sign (2 / 10) * (1 / 10)) <= Rabs (2 / 10) /\
  0 <= 2 / 10 * (sign (2 / 10) * (1 / 10)).
Proof.
  apply (restrict_step_components_shrinks (1 / 10) [2 / 10] 0).
  - lra.
  - reflexivity.
  - rewrite restrict_as_map. cbn [map nth_error]. unfold clamp.
    destruct (Rgt_dec (Rabs (2 / 10)) (1 / 10)) as [_|H]; [reflexivity|].
    exfalso. apply H. rewrite Rabs_pos_eq; lra.
Defined.

(** X3. With a negative [max_step] every component counts as too big: each
    one is replaced by [sign * max_step], so every non-zero component comes
    back with the opposite sign and magnitude [|max_step|]. *)
Theorem restrict_step_components_negative (m : R) (steps : vec) :
  m < 0 ->
  restrict_step_components m steps = map (fun x => sign x * m) steps /\
  (forall i x y,
      nth_error steps i = Some x -> x <> 0 ->
      nth_error (restrict_step_components m steps) i = Some y ->
      x * y < 0 /\ Rabs y = - m).
Proof.
  intros Hm.
  assert (E : restrict_step_components m steps = map (fun x => sign x * m) steps).
  { rewrite restrict_as_map. apply map_ext. intros x. unfold clamp.
    destruct (Rgt_dec (Rabs x) m) as [_|H]; [reflexivity|].
    pose proof (Rabs_pos x). lra. }
  split; [exact E|].
  intros i x y Hx Hne Hy. rewrite E, nth_error_map, Hx in Hy.
  injection Hy as <-. unfold sign.
  destruct (Rlt_dec x 0); [|destruct (Rlt_dec 0 x)]; [| |lra].
  - replace (-1 * m) with (- m) by lra. rewrite Rabs_pos_eq by lra.
    split; [nra|reflexivity].
  - rewrite Rmult_1_l, Rabs_left by lra. split; [nra|reflexivity].
Qed.

Lemma restrict_step_components_negative_witness :
  restrict_step_components (- (1 / 10)) [2 / 10; 0]
  = map (fun x => sign x * - (1 / 10)) [2 / 10; 0].
Proof.
  apply (restrict_step_components_negative (- (1 / 10)) [2 / 10; 0]). lra.
Defined.

Lemma unrestricted_step_cases (procrustes : geometry -> geometry)
  (st : optimizer) (g : geometry) :
  unrestricted_step procrustes st g
  = let g1 := aligned procrustes st g in
    let f := forces g1 in
    let st1 := record_forces st (energy g1) f in
    if (cur_cycle st =? 0)%Z || string_size_changed st g
    then Ok (div_scalar f (gamma st), st1)
    else
      prev_forces <- index (forces_hist st) (-1) ;;
      prev_step <- index (steps_hist st) (-1) ;;
      step <- add (div_scalar f (gamma st))
                (scale (Py.min (norm f ^ 2 / norm prev_forces ^ 2) 1)
                   prev_step) ;;
      Ok (step, st1).
Proof.
  unfold unrestricted_step. cbv zeta.
  change (cur_cycle (record_forces st _ _)) with (cur_cycle st).
  change (gamma (record_forces st _ _)) with (gamma st).
  change (steps_hist (record_forces st _ _)) with (steps_hist st).
  change (forces_hist (record_forces st ?e ?f)) with (forces_hist st ++ [f]).
  destruct ((cur_cycle st =? 0)%Z || string_size_changed st g);
    [reflexivity|].
  cbn [forces_hist record_forces]. now rewrite index_before_last.
Qed.

Lemma broadcastable_lengths (u v u' v' : vec) :
  length u = length u' -> length v = length v' ->
  broadcastable u v = broadcastable u' v'.
Proof. unfold broadcastable. now intros -> ->. Qed.

(** X4. [optimize] never fails in a warm-up cycle.  In any other cycle it
    fails exactly when the forces history or the steps history is empty
    ([IndexError]) or the previous step cannot be broadcast against the
    forces ([ValueError]). *)
Theorem optimize_raises (procrustes : geometry -> geometry) (st : optimizer)
  (g : geometry) (e : exn) :
  optimize procrustes st g = Raise e <->
  cur_cycle st <> 0%Z /\ string_size_changed st g = false /\
  ((forces_hist st = [] /\ e = IndexError) \/
   (forces_hist st <> [] /\ steps_hist st = [] /\ e = IndexError) \/
   (exists prev_forces prev_step,
       index (forces_hist st) (-1) = Ok prev_forces /\
       index (steps_hist st) (-1) = Ok prev_step /\
       broadcastable (forces (aligned procrustes st g)) prev_step = false /\
       e = ValueError)).
Proof.
  unfold optimize. rewrite unrestricted_step_cases. cbv zeta.
  set (f := forces (aligned procrustes st g)).
  destruct (Z.eqb_spec (cur_cycle st) 0) as [Hc|Hc]; cbn [orb].
  { cbn [bind]. split; [discriminate|intros (H & _); contradiction]. }
  destruct (string_size_changed st g); cbn [orb].
  { cbn [bind]. split; [discriminate|intros (_ & H & _); discriminate]. }
  destruct (index (forces_hist st) (-1)) as [pf|e1] eqn:Hpf; cbn [bind].
  2:{ apply index_minus_one_raises in Hpf. destruct Hpf as (Hnil & ->).
      split.
      - intros [= <-]. repeat split; auto.
      - intros (_ & _ & [(_ & ->)|[(_ & _ & ->)|(pf & ps & Hf & _)]]);
          try reflexivity.
        discriminate Hf. }
  pose proof (index_minus_one_ok _ _ Hpf) as Hne.
  destruct (index (steps_hist st) (-1)) as [ps|e2] eqn:Hps; cbn [bind].
  2:{ apply index_minus_one_raises in Hps. destruct Hps as (Hnil & ->).
      split.
      - intros [= <-]. repeat split; auto.
      - intros (_ & _ & [(Hf & _)|[(_ & _ & ->)|(pf' & ps & _ & Hs & _)]]);
          try reflexivity; [contradiction|].
        discriminate Hs. }
  pose proof (index_minus_one_ok _ _ Hps) as Hne'.
  destruct (add _ _) as [step|e3] eqn:Hadd; cbn [bind].
  - split; [discriminate|].
    intros (_ & _ & [(Hf & _)|[(_ & Hs & _)|(pf' & ps' & Hf & Hs & Hb & _)]]).
    + contradiction.
    + contradiction.
    + injection Hf as <-. injection Hs as <-.
      assert (Hr : add (div_scalar f (gamma st))
                     (scale (Py.min (norm f ^ 2 / norm pf ^ 2) 1) ps)
                   = Raise ValueError).
      { apply broadcast_raises. split; [|reflexivity].
        rewrite <- Hb. apply broadcastable_lengths;
          unfold div_scalar, scale; now rewrite length_map. }
      congruence.
  - apply broadcast_raises in Hadd. destruct Hadd as (Hb & ->).
    split.
    + intros [= <-]. repeat split; auto. right. right.
      exists pf, ps. repeat split.
      rewrite <- Hb. apply broadcastable_lengths;
        unfold div_scalar, scale; now rewrite length_map.
    + intros (_ & _ & [(Hf & _)|[(_ & Hs & _)|(_ & _ & _ & _ & _ & ->)]]).
      * contradiction.
      * contradiction.
      * reflexivity.
Qed.

Lemma grown_count_cons (c : geometry * bool) (l : list (geometry * bool)) :
  grown_count (c :: l)
  = ((if fully_grown (fst c) then 1 else 0) + grown_count l)%Z.
Proof.
  unfold grown_count. cbn [filter]. destruct (fully_grown (fst c)); cbn [length]; lia.
Qed.

Lemma grown_count_app (l l' : list (geometry * bool)) :
  grown_count (l ++ l') = (grown_count l + grown_count l')%Z.
Proof. unfold grown_count. rewrite filter_app, length_app. lia. Qed.

Lemma grown_count_nonneg (l : list (geometry * bool)) : (0 <= grown_count l)%Z.
Proof. unfold grown_count. lia. Qed.

Lemma run_checks_general (cycles : list (geometry * bool)) :
  forall (st : optimizer) (k : nat) (g : geometry) (converged : bool),
    nth_error cycles k = Some (g, converged) ->
    nth_error (run_checks st cycles) k
    = Some (fully_grown g
            && (stop_in st - grown_count (firstn (S k) cycles) =? 0)%Z,
            fully_grown g
            && (stop_in st - grown_count (firstn (S k) cycles) =? 0)%Z
            || converged).
Proof.
  induction cycles as [|[g0 c0] rest IH]; intros st k g converged Hk.
  - destruct k; discriminate.
  - destruct k as [|k].
    + cbn in Hk. injection Hk as -> ->. cbn [run_checks nth_error firstn].
      unfold check_convergence, full_stop, count_down. cbn [fst snd].
      rewrite grown_count_cons. cbn [fst]. unfold grown_count. cbn.
      destruct (fully_grown g); cbn [andb stop_in set_stop_in];
        [|reflexivity].
      now replace (stop_in st - (1 + 0))%Z with (stop_in st - 1)%Z by lia.
    + cbn [nth_error] in Hk. cbn [run_checks nth_error].
      rewrite (IH _ k g converged Hk).
      change (firstn (S (S k)) ((g0, c0) :: rest))
        with ((g0, c0) :: firstn (S k) rest).
      rewrite grown_count_cons. cbn [fst snd check_convergence].
      unfold count_down.
      destruct (fully_grown g0); cbn [stop_in set_stop_in].
      * now replace (stop_in st - 1 - grown_count (firstn (S k) rest))%Z
          with (stop_in st - (1 + grown_count (firstn (S k) rest)))%Z by lia.
      * now replace (stop_in st - (0 + grown_count (firstn (S k) rest)))%Z
          with (stop_in st - grown_count (firstn (S k) rest))%Z by lia.
Qed.

Lemma firstn_S_nth {A : Type} (l : list A) (k : nat) (a : A) :
  nth_error l k = Some a -> firstn (S k) l = firstn k l ++ [a].
Proof.
  revert k. induction l as [|b l IH]; intros [|k] H; try discriminate.
  - cbn in H. injection H as ->. reflexivity.
  - cbn [nth_error] in H.
    change (b :: firstn (S k) l = b :: (firstn k l ++ [a])).
    now rewrite (IH k H).
Qed.

Lemma firstn_prefix {A : Type} (l : list A) (j k : nat) :
  (j <= k)%nat -> exists rest, firstn k l = firstn j l ++ rest.
Proof.
  intros H. exists (skipn j (firstn k l)).
  rewrite <- (firstn_skipn j (firstn k l)) at 1.
  now rewrite firstn_firstn, Nat.min_l.
Qed.

(** X5. In any run, whichever cycles are fully grown: [full_stop] holds in a
    cycle exactly when the string is fully grown in it and the number of fully
    grown cycles so far, this one included, equals the initial [stop_in]; the
    value returned is [full_stop or converged]; and [full_stop] holds in at
    most one cycle of the run. *)
Theorem full_stop_fires_once (st : optimizer)
  (cycles : list (geometry * bool)) :
  (forall k g converged,
      nth_error cycles k = Some (g, converged) ->
      nth_error (run_checks st cycles) k
      = Some (fully_grown g
              && (grown_count (firstn (S k) cycles) =? stop_in st)%Z,
              fully_grown g
              && (grown_count (firstn (S k) cycles) =? stop_in st)%Z
              || converged)) /\
  (forall j k v v',
      nth_error (run_checks st cycles) j = Some (true, v) ->
      nth_error (run_checks st cycles) k = Some (true, v') ->
      j = k).
Proof.
  assert (Hk : forall k g converged,
             nth_error cycles k = Some (g, converged) ->
             nth_error (run_checks st cycles) k
             = Some (fully_grown g
                     && (grown_count (firstn (S k) cycles) =? stop_in st)%Z,
                     fully_grown g
                     && (grown_count (firstn (S k) cycles) =? stop_in st)%Z
                     || converged)).
  { intros k g converged H. rewrite (run_checks_general cycles st k g converged H).
    replace (stop_in st - grown_count (firstn (S k) cycles) =? 0)%Z
      with (grown_count (firstn (S k) cycles) =? stop_in st)%Z; [reflexivity|].
    destruct (Z.eqb_spec (grown_count (firstn (S k) cycles)) (stop_in st)),
      (Z.eqb_spec (stop_in st - grown_count (firstn (S k) cycles)) 0);
      try reflexivity; lia. }
  split; [exact Hk|].
  assert (Hlt : forall j k v v',
             (j < k)%nat ->
             nth_error (run_checks st cycles) j = Some (true, v) ->
             nth_error (run_checks st cycles) k = Some (true, v') -> False).
  { intros j k v v' Hjk Hj Hk'.
    assert (Hlen : length (run_checks st cycles) = length cycles).
    { clear. revert st. induction cycles as [|[g c] rest IH]; intros st;
        cbn; [reflexivity|]. now rewrite IH. }
    destruct (nth_error cycles j) as [[gj cj]|] eqn:Ej.
    2:{ apply nth_error_None in Ej. rewrite <- Hlen in Ej.
        apply nth_error_None in Ej. congruence. }
    destruct (nth_error cycles k) as [[gk ck]|] eqn:Ek.
    2:{ apply nth_error_None in Ek. rewrite <- Hlen in Ek.
        apply nth_error_None in Ek. congruence. }
    rewrite (Hk j gj cj Ej) in Hj. rewrite (Hk k gk ck Ek) in Hk'.
    assert (Hj' : fully_grown gj
                  && (grown_count (firstn (S j) cycles) =? stop_in st)%Z = true)
      by congruence.
    assert (Hk'' : fully_grown gk
                   && (grown_count (firstn (S k) cycles) =? stop_in st)%Z = true)
      by congruence.
    clear Hj Hk'. apply andb_true_iff in Hj', Hk''.
    destruct Hj' as (_ & Hj). destruct Hk'' as (Hgk & Hk').
    apply Z.eqb_eq in Hj, Hk'.
    rewrite (firstn_S_nth cycles k (gk, ck) Ek), grown_count_app in Hk'.
    destruct (firstn_prefix cycles (S j) k Hjk) as (rest & Hrest).
    rewrite Hrest, grown_count_app in Hk'.
    unfold grown_count at 3 in Hk'. cbn [filter fst] in Hk'.
    rewrite Hgk in Hk'. cbn [length] in Hk'.
    pose proof (grown_count_nonneg rest). lia. }
  intros j k v v' Hj Hk'.
  destruct (Nat.lt_trichotomy j k) as [H|[H|H]]; [exfalso|exact H|exfalso].
  - exact (Hlt j k v v' H Hj Hk').
  - exact (Hlt k j v' v H Hk' Hj).
Qed.



(** X7. [optimize] superposes the images under the condition of
    [prepare_opt], alignment switched on and Cartesian coordinates, and only
    when the number of coordinates has changed or there is no previous cycle;
    in every other case the geometry whose forces it reads is the one it was
    given. *)
Theorem alignment_condition (procrustes : geometry -> geometry)
  (st : optimizer) (g : geometry) :
  (string_size_changed st g = true ->
   aligned procrustes st g = prepare_opt procrustes st g) /\
  ((length (coords_hist st) < 2)%nat ->
   aligned procrustes st g = prepare_opt procrustes st g) /\
  (forall prev,
      index (coords_hist st) (-2) = Ok prev ->
      length (coords g) = length prev ->
      aligned procrustes st g = g) /\
  (align st = false \/ is_cart_opt st = false ->
   aligned procrustes st g = g /\ prepare_opt procrustes st g = g).
Proof.
  unfold aligned, prepare_opt. repeat split.
  - intros ->. now rewrite andb_true_r.
  - intros H.
    assert (E : string_size_changed st g = true)
      by (apply string_size_changed_spec; now left).
    rewrite E. now rewrite andb_true_r.
  - intros prev Hp Hl. unfold string_size_changed.
    rewrite Hp, Hl, Nat.eqb_refl. cbn [negb]. now rewrite andb_false_r.
  - destruct H as [-> | ->]; [reflexivity|].
    now rewrite andb_false_r.
  - destruct H as [-> | ->]; [reflexivity|]. now rewrite andb_false_r.
Qed.

End StringOptimizerMore.

(** ** Primitive: symmetry, scaling and the range of the weight *)

Module PrimitiveMore.

Import Py Np Primitive PyFacts PrimitiveFacts.

Definition sum_squares (u : vec) : R := sum (map (fun x => x * x) u).

Lemma zip_with_mult_comm (u : vec) :
  forall v, zip_with Rmult u v = zip_with Rmult v u.
Proof.
  induction u as [|x u IH]; intros [|y v]; cbn; try reflexivity.
  now rewrite IH, Rmult_comm.
Qed.

Lemma dot_comm (u v : vec) : dot u v = dot v u.
Proof.
  unfold dot. rewrite (Nat.eqb_sym (length u) (length v)).
  now rewrite zip_with_mult_comm.
Qed.

(** X8. The parallelism test does not depend on the order of its two
    arguments, also when it raises. *)
Theorem parallel_symmetric (u v : vec) (thresh : R) :
  parallel u v thresh = parallel v u thresh.
Proof.
  unfold parallel. rewrite (dot_comm u v).
  destruct (dot v u); cbn [bind]; [|reflexivity].
  now rewrite (Rmult_comm (norm u) (norm v)).
Qed.

Lemma norm_scaled_abs (c : R) (u : vec) : norm (scale c u) = Rabs c * norm u.
Proof.
  unfold norm.
  assert (E : sum (map (fun x => x * x) (scale c u))
              = Rsqr c * sum (map (fun x => x * x) u)).
  { unfold scale, Rsqr. rewrite map_map.
    induction u as [|x u IH]; cbn [map sum fold_right]; [lra|].
    unfold sum in IH. rewrite IH. lra. }
  rewrite E, sqrt_mult, sqrt_Rsqr_abs; [reflexivity|apply Rle_0_sqr|].
  apply sum_squares_nonneg.
Qed.

Lemma dot_scaled_left (c : R) (u v : vec) :
  sum (zip_with Rmult (scale c u) v) = c * sum (zip_with Rmult u v).
Proof.
  unfold scale. revert v.
  induction u as [|x u IH]; intros [|y v];
    cbn [map zip_with sum fold_right]; try lra.
  unfold sum in IH. rewrite IH. lra.
Qed.

Lemma dot_self (u : vec) :
  sum (zip_with Rmult u u) = sum (map (fun x => x * x) u).
Proof.
  induction u as [|x u IH]; cbn [zip_with map sum fold_right]; [reflexivity|].
  unfold sum in IH. now rewrite IH.
Qed.

(** X9. Multiplying one argument by a non-zero factor, positive or negative,
    does not change the verdict of the parallelism test; in particular a
    non-zero vector is parallel to each of its non-zero multiples, also the
    ones pointing the opposite way. *)
Theorem parallel_scale_invariant (c : R) (u v : vec) (thresh : R) :
  c <> 0 ->
  parallel (scale c u) v thresh = parallel u v thresh /\
  (Exists (fun x => x <> 0) u ->
   parallel u (scale c u) default_thresh = Ok true).
Proof.
  intros Hc.
  assert (Hinv : forall w, parallel (scale c u) w thresh = parallel u w thresh).
  { intros w. unfold parallel, dot.
    replace (length (scale c u)) with (length u)
      by (unfold scale; now rewrite length_map).
    destruct (Nat.eqb (length u) (length w)); cbn [bind]; [|reflexivity].
    do 2 f_equal. f_equal.
    rewrite dot_scaled_left, norm_scaled_abs.
    set (d := sum (zip_with Rmult u w)).
    replace (c * d / (Rabs c * norm u * norm w))
      with ((c / Rabs c) * (d / (norm u * norm w))).
    - rewrite Rabs_mult. unfold Rdiv at 1.
      rewrite Rabs_mult, Rabs_inv, Rabs_Rabsolu, Rinv_r; [lra|].
      now apply Rabs_no_R0.
    - unfold Rdiv. rewrite !Rinv_mult. ring. }
  split; [apply Hinv|].
  intros Hu. rewrite parallel_symmetric.
  unfold parallel, dot in *.
  replace (length (scale c u)) with (length u)
    by (unfold scale; now rewrite length_map).
  rewrite Nat.eqb_refl. cbn [bind]. f_equal. apply Rltb_true.
  rewrite dot_scaled_left, norm_scaled_abs.
  pose proof (sum_squares_pos u Hu) as Hp.
  pose proof (sqrt_lt_R0 _ Hp) as Hs.
  assert (Hd : sum (zip_with Rmult u u) = norm u * norm u).
  { unfold norm. rewrite sqrt_sqrt by lra. apply dot_self. }
  rewrite Hd.
  replace (c * (norm u * norm u) / (Rabs c * norm u * norm u))
    with (c / Rabs c).
  - unfold Rdiv. rewrite Rabs_mult, Rabs_inv, Rabs_Rabsolu, Rinv_r.
    + unfold default_thresh. lra.
    + now apply Rabs_no_R0.
  - fold (norm u) in Hs. field. split; [lra|now apply Rabs_no_R0].
Qed.

Lemma parallel_scale_invariant_witness :
  parallel [1; 2] (scale (- 3) [1; 2]) default_thresh = Ok true.
Proof.
  apply (parallel_scale_invariant (- 3) [1; 2] [1; 2] default_thresh).
  - lra.
  - left. lra.
Defined.

Lemma sub_swapped (p q d : vec) :
  sub p q = Ok d -> exists d', sub q p = Ok d' /\ norm d' = norm d.
Proof.
  assert (Hz : forall a b : vec,
             norm (zip_with Rminus b a) = norm (zip_with Rminus a b)).
  { intros a b. unfold norm. f_equal. revert b.
    induction a as [|x a IH]; intros [|y b];
      cbn [zip_with map sum fold_right]; try reflexivity.
    unfold sum in IH. rewrite IH. lra. }
  assert (Hm : forall (x : R) (a : vec),
             norm (map (fun y => y - x) a) = norm (map (fun y => x - y) a)).
  { intros x a. unfold norm. f_equal.
    induction a as [|y a IH]; cbn [map sum fold_right]; [reflexivity|].
    unfold sum in IH. rewrite IH. lra. }
  unfold sub, broadcast. rewrite (Nat.eqb_sym (length q) (length p)).
  destruct (Nat.eqb (length p) (length q)) eqn:E.
  - intros [= <-]. eexists. split; [reflexivity|apply Hz].
  - destruct p as [|x [|x' p]]; destruct q as [|y [|y' q]];
      try discriminate E; intros H; try discriminate H;
      injection H as <-; eexists; (split; [reflexivity|]);
      first [reflexivity
            | exact (Hm x (y :: y' :: q))
            | exact (eq_sym (Hm y (x :: x' :: p)))].
Qed.

Lemma broadcast_error_kind (f : R -> R -> R) (u v : vec) (e : exn) :
  broadcast f u v = Raise e -> e = ValueError.
Proof.
  unfold broadcast. destruct (Nat.eqb (length u) (length v)); [discriminate|].
  destruct u as [|x [|x' u]]; destruct v as [|y [|y' v]];
    intros H; try discriminate H; now injection H.
Qed.

Section RhoMore.

Variable CR : string -> option R.

(** What a successful evaluation of [rho] went through. *)
Lemma rho_inversion (atoms : list string) (coords3d : list vec)
  (indices : list Z) (w : R) :
  rho CR atoms coords3d indices = Ok w ->
  exists i j ci cj d ai aj ri rj,
    indices = [i; j] /\
    index coords3d i = Ok ci /\ index coords3d j = Ok cj /\
    sub ci cj = Ok d /\
    index atoms i = Ok ai /\ index atoms j = Ok aj /\
    CR (lower ai) = Some ri /\ CR (lower aj) = Some rj /\
    w = exp (- (norm d / (ri + rj) - 1)).
Proof.
  unfold rho, CR_getitem.
  destruct indices as [|i [|j [|k l]]]; try discriminate.
  destruct (index coords3d i) as [ci|] eqn:Hci; [|discriminate].
  destruct (index coords3d j) as [cj|] eqn:Hcj; [|discriminate]. cbn [bind].
  destruct (sub ci cj) as [d|] eqn:Hd; [|discriminate]. cbn [bind].
  destruct (index atoms i) as [ai|] eqn:Hai; [|discriminate]. cbn [bind].
  destruct (CR (lower ai)) as [ri|] eqn:Hri; [|discriminate]. cbn [bind].
  destruct (index atoms j) as [aj|] eqn:Haj; [|discriminate]. cbn [bind].
  destruct (CR (lower aj)) as [rj|] eqn:Hrj; [|discriminate]. cbn [bind].
  intros [= <-]. exists i, j, ci, cj, d, ai, aj, ri, rj. now repeat split.
Qed.

Lemma rho_compose (atoms : list string) (coords3d : list vec) (i j : Z)
  (ci cj d : vec) (ai aj : string) (ri rj : R) :
  index coords3d i = Ok ci -> index coords3d j = Ok cj ->
  sub ci cj = Ok d ->
  index atoms i = Ok ai -> index atoms j = Ok aj ->
  CR (lower ai) = Some ri -> CR (lower aj) = Some rj ->
  rho CR atoms coords3d [i; j] = Ok (exp (- (norm d / (ri + rj) - 1))).
Proof.
  intros Hci Hcj Hd Hai Haj Hri Hrj. unfold rho, CR_getitem.
  rewrite Hci, Hcj. cbn [bind]. rewrite Hd. cbn [bind].
  rewrite Hai. cbn [bind]. rewrite Hri. cbn [bind].
  rewrite Haj. cbn [bind]. now rewrite Hrj.
Qed.

(** X10. Whenever [rho] returns, the weight is positive; when every radius
    of the table is positive it is at most [e], the value at distance 0. *)
Theorem rho_range (atoms : list string) (coords3d : list vec)
  (indices : list Z) (w : R) :
  rho CR atoms coords3d indices = Ok w ->
  0 < w /\
  ((forall symbol r, CR symbol = Some r -> 0 < r) -> w <= exp 1).
Proof.
  intros H. apply rho_inversion in H.
  destruct H as (i & j & ci & cj & d & ai & aj & ri & rj
                 & _ & _ & _ & _ & _ & _ & Hri & Hrj & ->).
  split; [apply exp_pos|].
  intros Hpos. pose proof (Hpos _ _ Hri). pose proof (Hpos _ _ Hrj).
  assert (Hq : 0 <= norm d / (ri + rj)).
  { apply Rmult_le_pos; [apply sqrt_pos|].
    left. apply Rinv_0_lt_compat. lra. }
  destruct (Rle_lt_or_eq_dec _ _ Hq) as [Hlt|Heq].
  - left. apply exp_increasing. lra.
  - right. f_equal. lra.
Qed.

(** X11. Whenever [rho] returns for a pair of indices it returns the same
    weight for the pair in the opposite order. *)
Theorem rho_symmetric (atoms : list string) (coords3d : list vec) (i j : Z)
  (w : R) :
  rho CR atoms coords3d [i; j] = Ok w ->
  rho CR atoms coords3d [j; i] = Ok w.
Proof.
  intros H. apply rho_inversion in H.
  destruct H as (i' & j' & ci & cj & d & ai & aj & ri & rj
                 & [= <- <-] & Hci & Hcj & Hd & Hai & Haj & Hri & Hrj & ->).
  destruct (sub_swapped _ _ _ Hd) as (d' & Hd' & Hn).
  rewrite (rho_compose atoms coords3d j i cj ci d' aj ai rj ri); try assumption.
  now rewrite Hn, (Rplus_comm rj ri).
Qed.

(** X12. [rho] returns exactly when it is given two indices, both within
    the coordinates and the atom list (counting from the end when negative),
    rows that can be subtracted, and symbols whose lower-case form is in the
    radius table; every other call raises. *)
Theorem rho_defined (atoms : list string) (coords3d : list vec)
  (indices : list Z) :
  (exists w, rho CR atoms coords3d indices = Ok w) <->
  (exists i j ci cj ai aj,
      indices = [i; j] /\
      index coords3d i = Ok ci /\ index coords3d j = Ok cj /\
      broadcast Rminus ci cj <> Raise ValueError /\
      index atoms i = Ok ai /\ index atoms j = Ok aj /\
      CR (lower ai) <> None /\ CR (lower aj) <> None).
Proof.
  split.
  - intros (w & H). apply rho_inversion in H.
    destruct H as (i & j & ci & cj & d & ai & aj & ri & rj
                   & -> & Hci & Hcj & Hd & Hai & Haj & Hri & Hrj & _).
    exists i, j, ci, cj, ai, aj.
    repeat split; try assumption; unfold sub in Hd; congruence.
  - intros (i & j & ci & cj & ai & aj & -> & Hci & Hcj & Hd & Hai & Haj
            & Hri & Hrj).
    destruct (CR (lower ai)) as [ri|] eqn:Eri; [|contradiction].
    destruct (CR (lower aj)) as [rj|] eqn:Erj; [|contradiction].
    destruct (sub ci cj) as [d|e] eqn:Ed.
    + eexists. apply (rho_compose atoms coords3d i j ci cj d ai aj ri rj);
        assumption.
    + exfalso. apply Hd. unfold sub in Ed. rewrite Ed. f_equal.
      apply (broadcast_error_kind Rminus ci cj e Ed).
Qed.

End RhoMore.

Lemma rho_range_witness :
  0 < 1 /\
  ((forall symbol r, radii symbol = Some r -> 0 < r) -> 1 <= exp 1).
Proof.
  apply (rho_range radii ["C"; "H"]%string [[0; 0; 0]; [0; 0; 1]] [0; 1]%Z).
  rewrite (rho_compose radii ["C"; "H"]%string [[0; 0; 0]; [0; 0; 1]] 0 1
             [0; 0; 0] [0; 0; 1] [0 - 0; 0 - 0; 0 - 1] "C" "H" (3 / 4) (1 / 4)
             eq_refl eq_refl eq_refl eq_refl eq_refl eq_refl eq_refl).
  assert (Hn : norm [0 - 0; 0 - 0; 0 - 1] = 1).
  { unfold norm. cbn [map sum fold_right].
    replace ((0 - 0) * (0 - 0) + ((0 - 0) * (0 - 0) + ((0 - 1) * (0 - 1) + 0)))
      with 1 by lra.
    apply sqrt_1. }
  rewrite Hn. f_equal.
  replace (- (1 / (3 / 4 + 1 / 4) - 1)) with 0 by lra. apply exp_0.
Defined.

Lemma rho_symmetric_witness :
  rho radii ["C"; "H"]%string [[0; 0; 0]; [0; 0; 1]] [1; 0]%Z
  = Ok (exp (- (norm [0 - 0; 0 - 0; 0 - 1] / (3 / 4 + 1 / 4) - 1))).
Proof.
  apply (rho_symmetric radii ["C"; "H"]%string [[0; 0; 0]; [0; 0; 1]] 0 1).
  apply (rho_compose radii ["C"; "H"]%string [[0; 0; 0]; [0; 0; 1]] 0 1
           [0; 0; 0] [0; 0; 1] [0 - 0; 0 - 0; 0 - 1] "C" "H" (3 / 4) (1 / 4));
    reflexivity.
Defined.

End PrimitiveMore.

(** ** Calculator: scratch directories, backups, counters and file names *)

Module CalculatorMore.

Import Py Calculator CalculatorSetup CalculatorFacts.

Lemma write_file_absent (path fn content : string)
  (dirs : list (string * directory)) :
  ~ In path (map fst dirs) -> write_file path fn content dirs = dirs.
Proof.
  unfold write_file. induction dirs as [|d dirs IH]; intros H; cbn [map];
    [reflexivity|].
  cbn [map In] in H.
  destruct (String.eqb _ path) eqn:E; [apply String.eqb_eq in E; tauto|].
  rewrite IH by tauto. reflexivity.
Qed.

Lemma write_file_head (path fn content : string) (files : directory)
  (dirs : list (string * directory)) :
  write_file path fn content ((path, files) :: dirs)
  = (path, (fn, content)
           :: filter (fun f => negb (String.eqb (fst f) fn)) files)
      :: write_file path fn content dirs.
Proof. unfold write_file. cbn [map fst snd]. now rewrite String.eqb_refl. Qed.

Lemma rmtree_absent (path : string) (dirs : list (string * directory)) :
  ~ In path (map fst dirs) -> rmtree path dirs = dirs.
Proof.
  unfold rmtree. induction dirs as [|d dirs IH]; intros H; cbn [filter];
    [reflexivity|].
  cbn [map In] in H.
  destruct (String.eqb _ path) eqn:E; [apply String.eqb_eq in E; tauto|].
  cbn [negb]. rewrite IH by tauto. reflexivity.
Qed.


Section Scratch.

Context {results : Type}.
Variable ext : collaborators results.
Variable mkdtemp : world -> string -> Z -> string.

Variable c : calculator.
Variable w : world.
Variable inp : string.

Hypothesis fresh :
  ~ In (mkdtemp w (name c) (calc_counter c)) (map fst (scratch w)).
Hypothesis two_files : inp_fn c <> out_fn c.

(** The scratch directory as the program finds it and as it leaves it. *)
Lemma scratch_started :
  scratch (started mkdtemp c w inp)
  = (mkdtemp w (name c) (calc_counter c),
     [(out_fn c, ""%string); (inp_fn c, inp)]) :: scratch w.
Proof.
  unfold started, prepare. cbn [scratch].
  rewrite (write_file_head _ (inp_fn c)).
  rewrite (write_file_absent _ (inp_fn c)) by exact fresh.
  rewrite write_file_head, write_file_absent by exact fresh.
  cbn [filter fst].
  destruct (String.eqb _ (out_fn c)) eqn:E;
    [apply String.eqb_eq in E; contradiction|].
  reflexivity.
Qed.

Lemma scratch_finished (output : string) :
  scratch (finished mkdtemp c w inp output)
  = (mkdtemp w (name c) (calc_counter c),
     [(out_fn c, output); (inp_fn c, inp)]) :: scratch w.
Proof.
  unfold finished. cbn [scratch fst prepare].
  rewrite scratch_started.
  rewrite write_file_head, write_file_absent by exact fresh.
  cbn [filter fst]. rewrite String.eqb_refl. cbn [negb].
  destruct (String.eqb _ (out_fn c)) eqn:E;
    [apply String.eqb_eq in E; contradiction|].
  reflexivity.
Qed.

Lemma read_dir_head (path : string) (files : directory)
  (dirs : list (string * directory)) :
  read_dir path ((path, files) :: dirs) = files.
Proof. unfold read_dir. cbn [find fst]. now rewrite String.eqb_refl. Qed.

Lemma run_unfolded (calc : string) (add_args : list string) :
  let path := mkdtemp w (name c) (calc_counter c) in
  run ext mkdtemp c w inp calc add_args
  = match program ext (base_cmd c :: inp_fn c :: add_args)
            [(out_fn c, ""%string); (inp_fn c, inp)] with
    | Raise e => (Raise e, c, started mkdtemp c w inp)
    | Ok (status, output) =>
        match parse_output ext calc [(out_fn c, output); (inp_fn c, inp)] with
        | Ok res =>
            (Ok res, set_calc_counter c (calc_counter c + 1),
             clean (finished mkdtemp c w inp output) path)
        | Raise err =>
            (Raise SystemExit, set_calc_counter c (calc_counter c + 1),
             clean (crash_handler ext c (finished mkdtemp c w inp output)
                      path inp err) path)
        end
    end.
Proof.
  intros path. unfold run, finished, started, prepare. fold path.
  cbn [fst snd scratch crashed stdout].
  rewrite (write_file_head _ (inp_fn c)).
  rewrite (write_file_absent _ (inp_fn c)) by exact fresh.
  cbn [filter].
  rewrite (write_file_head path (out_fn c) "").
  rewrite (write_file_absent path (out_fn c) "") by exact fresh.
  cbn [filter fst].
  destruct (String.eqb _ (out_fn c)) eqn:E;
    [apply String.eqb_eq in E; contradiction|].
  cbn [negb]. rewrite read_dir_head.
  destruct (program ext _ _) as [[status output]|e]; [|reflexivity].
  rewrite write_file_head, write_file_absent by exact fresh.
  cbn [filter fst]. rewrite String.eqb_refl, E. cbn [negb].
  rewrite read_dir_head.
  destruct (parse_output ext calc _); reflexivity.
Qed.

(** X13. With a fresh scratch directory and distinct input and output file
    names: the program finds the input and an empty output file in its
    directory; once it has run, whether parsing succeeds or not, [run]
    leaves the scratch directories as they were before the call and has
    advanced the counter by one; when the program cannot be started the
    scratch directory stays behind and the counter is not advanced. *)
Theorem run_scratch_lifecycle (calc : string) (add_args : list string) :
  let path := mkdtemp w (name c) (calc_counter c) in
  let args := base_cmd c :: inp_fn c :: add_args in
  let dir := [(out_fn c, ""%string); (inp_fn c, inp)] in
  (forall status output,
      program ext args dir = Ok (status, output) ->
      scratch (snd (run ext mkdtemp c w inp calc add_args)) = scratch w /\
      calc_counter (snd (fst (run ext mkdtemp c w inp calc add_args)))
      = (calc_counter c + 1)%Z) /\
  (forall e,
      program ext args dir = Raise e ->
      run ext mkdtemp c w inp calc add_args
      = (Raise e, c,
         {| scratch := (path, dir) :: scratch w;
            crashed := crashed w; stdout := stdout w |})).
Proof.
  intros path args dir. rewrite run_unfolded. cbv zeta.
  fold path. fold args. fold dir. split.
  - intros status output Hp. rewrite Hp.
    assert (Hclean : forall w', scratch w' = scratch (finished mkdtemp c w inp output) ->
                                scratch (clean w' path) = scratch w).
    { intros w' Hw'. unfold clean. cbn [scratch]. rewrite Hw', scratch_finished.
      fold path. unfold rmtree. cbn [filter fst]. rewrite String.eqb_refl.
      cbn [negb]. fold (rmtree path (scratch w)).
      apply rmtree_absent, fresh. }
    destruct (parse_output ext calc _); cbn [fst snd calc_counter set_calc_counter];
      (split; [apply Hclean; reflexivity|reflexivity]).
  - intros e Hp. rewrite Hp. f_equal.
    pose proof scratch_started as Hs. fold path in Hs. fold dir in Hs.
    assert (Hc : crashed (started mkdtemp c w inp) = crashed w) by reflexivity.
    assert (Ho : stdout (started mkdtemp c w inp) = stdout w) by reflexivity.
    destruct (started mkdtemp c w inp) as [s cr so].
    cbn [scratch crashed stdout] in Hs, Hc, Ho. now subst.
Qed.


End Scratch.

Lemma idle_fresh :
  ~ In (fresh_dir empty_world (name idle) (calc_counter idle))
      (map fst (scratch empty_world)).
Proof. intros []. Qed.

Lemma idle_two_files : inp_fn idle <> out_fn idle.
Proof. discriminate. Qed.

Lemma run_scratch_lifecycle_witness :
  scratch (snd (run failing fresh_dir idle empty_world "geom" "energy" []))
  = [].
Proof.
  apply (proj1 (run_scratch_lifecycle failing fresh_dir idle empty_world
                  "geom" idle_fresh idle_two_files "energy" [])
           1%Z "segmentation fault"%string).
  reflexivity.
Defined.


(** X15. Whatever [last_calc_cycle] is passed to the constructor, the
    counter of the new calculator is that value itself (0 when it is absent
    or 0): the increment made for a restart is overwritten by [reattach]. *)
Theorem init_counter (base_cmd0 : string) (calc_number0 charge0 mult0 : Z)
  (base_name0 : string) (last_calc_cycle : option Z) :
  calc_counter (fst (init base_cmd0 calc_number0 charge0 mult0 base_name0
                       last_calc_cycle))
  = match last_calc_cycle with Some n => n | None => 0%Z end /\
  name (fst (init base_cmd0 calc_number0 charge0 mult0 base_name0
               last_calc_cycle))
  = (base_name0 ++ "_" ++ str_int calc_number0)%string.
Proof.
  unfold init. destruct last_calc_cycle as [n|]; cbn [truthy].
  - destruct (Z.eqb_spec n 0) as [->|Hn]; cbn [negb fst]; split; reflexivity.
  - split; reflexivity.
Qed.

(** *** File names *)

Lemma string_length_append (s t : string) :
  String.length (s ++ t) = (String.length s + String.length t)%nat.
Proof. induction s as [|a s IH]; cbn; [reflexivity|now rewrite IH]. Qed.

Lemma append_cancel_l (s t t' : string) :
  (s ++ t = s ++ t')%string -> t = t'.
Proof.
  induction s as [|a s IH]; cbn; intros H; [exact H|].
  injection H as H. now apply IH.
Qed.

Lemma append_cancel_r (t : string) :
  forall s s', (s ++ t = s' ++ t)%string -> s = s'.
Proof.
  induction s as [|a s IH]; intros [|a' s'] H.
  - reflexivity.
  - apply (f_equal String.length) in H.
    cbn in H. rewrite string_length_append in H. lia.
  - apply (f_equal String.length) in H.
    cbn in H. rewrite string_length_append in H. lia.
  - cbn in H. injection H as -> H. f_equal. now apply IH.
Qed.

(** Reading a zero-padded decimal back. *)
Definition read_decimal (s : string) : option N :=
  option_map N.of_uint (DecimalString.NilEmpty.uint_of_string s).

Lemma read_decimal_zeros (k : nat) (s : string) :
  read_decimal (zeros k ++ s) = read_decimal s.
Proof.
  induction k as [|k IH]; [reflexivity|].
  unfold read_decimal in *. cbn [zeros append].
  cbn [DecimalString.NilEmpty.uint_of_string]. rewrite <- IH.
  now destruct (DecimalString.NilEmpty.uint_of_string (zeros k ++ s)).
Qed.

Lemma read_decimal_zfill (width : nat) (n : N) :
  read_decimal (zfill width (decimal n)) = Some n.
Proof.
  unfold zfill. rewrite read_decimal_zeros. unfold read_decimal, decimal.
  rewrite DecimalString.NilEmpty.usu. cbn [option_map].
  now rewrite DecimalN.Unsigned.of_to.
Qed.

Lemma format_03d_injective (n m : Z) :
  (0 <= n)%Z -> (0 <= m)%Z -> format_03d n = format_03d m -> n = m.
Proof.
  intros Hn Hm H. unfold format_03d in H.
  destruct (Z.ltb_spec n 0); [lia|]. destruct (Z.ltb_spec m 0); [lia|].
  apply (f_equal read_decimal) in H. rewrite !read_decimal_zfill in H.
  injection H as H. lia.
Qed.

(** X16. [make_fn] treats the counter 0 like no counter at all and uses the
    calculator's own counter for it; for non-negative counters the name
    determines the counter in effect, so two positive counters give
    different names, and a positive counter gives the name of the current
    cycle only if it is the current counter. *)
Theorem make_fn_counter (abspath_of : string -> string) (c : calculator)
  (ext : string) (abspath : bool) :
  make_fn abspath_of c ext (Some 0%Z) abspath
  = make_fn abspath_of c ext None abspath /\
  (forall n m,
      (0 < n)%Z -> (0 < m)%Z ->
      make_fn abspath_of c ext (Some n) false
      = make_fn abspath_of c ext (Some m) false ->
      n = m) /\
  (forall n,
      (0 < n)%Z -> (0 <= calc_counter c)%Z ->
      make_fn abspath_of c ext (Some n) false
      = make_fn abspath_of c ext None false ->
      n = calc_counter c).
Proof.
  assert (Hinj : forall n m,
             (0 <= n)%Z -> (0 <= m)%Z ->
             (name c ++ "." ++ format_03d n ++ "." ++ ext
              = name c ++ "." ++ format_03d m ++ "." ++ ext)%string ->
             n = m).
  { intros n m Hn Hm H. apply append_cancel_l in H.
    apply append_cancel_l in H. apply append_cancel_r in H.
    now apply format_03d_injective. }
  split; [reflexivity|]. split.
  - intros n m Hn Hm. unfold make_fn. cbn [truthy].
    destruct (Z.eqb_spec n 0); [lia|]. destruct (Z.eqb_spec m 0); [lia|].
    cbn [negb]. intros H. apply Hinj; [lia|lia|exact H].
  - intros n Hn Hc. unfold make_fn. cbn [truthy].
    destruct (Z.eqb_spec n 0); [lia|]. cbn [negb].
    intros H. apply Hinj; [lia|lia|exact H].
Qed.

Section SuccessiveRuns.

Context {results : Type}.
Variable ext : collaborators results.
Variable mkdtemp : world -> string -> Z -> string.

Lemma run_ok_inversion (c c' : calculator) (w w' : world) (inp calc : string)
  (add_args : list string) (res : results) :
  run ext mkdtemp c w inp calc add_args = (Ok res, c', w') ->
  c' = set_calc_counter c (calc_counter c + 1) /\
  crashed w' = crashed w /\ stdout w' = stdout w /\
  (~ In (mkdtemp w (name c) (calc_counter c)) (map fst (scratch w)) ->
   inp_fn c <> out_fn c -> scratch w' = scratch w).
Proof.
  intros H. split; [|split; [|split]].
  - unfold run in H. destruct (prepare mkdtemp c w inp) as [path w1].
    destruct (program ext _ _) as [[status output]|e]; [|discriminate].
    destruct (parse_output ext calc _); [|discriminate].
    now injection H as _ <- _.
  - unfold run, prepare in H.
    destruct (program ext _ _) as [[status output]|e]; [|discriminate].
    destruct (parse_output ext calc _); [|discriminate].
    now injection H as _ _ <-.
  - unfold run, prepare in H.
    destruct (program ext _ _) as [[status output]|e]; [|discriminate].
    destruct (parse_output ext calc _); [|discriminate].
    now injection H as _ _ <-.
  - intros Hfresh Htwo.
    rewrite (run_unfolded ext mkdtemp c w inp Hfresh Htwo) in H.
    cbv zeta in H.
    destruct (program ext _ _) as [[status output]|e]; [|discriminate].
    destruct (parse_output ext calc _); [|discriminate].
    injection H as _ _ <-. unfold clean. cbn [scratch].
    rewrite (scratch_finished mkdtemp c w inp Hfresh Htwo).
    unfold rmtree. cbn [filter fst]. rewrite String.eqb_refl. cbn [negb].
    now apply rmtree_absent.
Qed.

(** X17. When a series of calls of [run] on one calculator all return, the
    counter has advanced by the number of calls, there is one result per
    call, name, command and file names are unchanged, nothing was printed or
    backed up, and, with fresh scratch directories and distinct input and
    output file names, no scratch directory is left. *)
Theorem successful_runs (calls : list (string * string * list string)) :
  forall (c c' : calculator) (w w' : world) (ress : list results),
    run_all ext mkdtemp c w calls = (Ok ress, c', w') ->
    calc_counter c' = (calc_counter c + Z.of_nat (length calls))%Z /\
    length ress = length calls /\
    name c' = name c /\ base_cmd c' = base_cmd c /\
    inp_fn c' = inp_fn c /\ out_fn c' = out_fn c /\
    crashed w' = crashed w /\ stdout w' = stdout w /\
    ((forall w0 prefix counter,
         ~ In (mkdtemp w0 prefix counter) (map fst (scratch w0))) ->
     inp_fn c <> out_fn c -> scratch w' = scratch w).
Proof.
  induction calls as [|[[inp calc] add_args] rest IH];
    intros c c' w w' ress H.
  - cbn in H. injection H as <- <- <-. cbn [length]. rewrite Z.add_0_r.
    now repeat split.
  - cbn [run_all] in H.
    destruct (run ext mkdtemp c w inp calc add_args) as [[r c1] w1] eqn:Hrun.
    destruct r as [res|e]; [|discriminate].
    destruct (run_all ext mkdtemp c1 w1 rest) as [[r2 c2] w2] eqn:Hrest.
    destruct r2 as [ress2|e]; [|discriminate].
    injection H as <- <- <-.
    apply run_ok_inversion in Hrun.
    destruct Hrun as (-> & Hcr & Hso & Hsc).
    destruct (IH _ _ _ _ _ Hrest)
      as (Hc & Hl & Hn & Hb & Hi & Ho & Hcr2 & Hso2 & Hsc2).
    cbn [calc_counter name base_cmd inp_fn out_fn set_calc_counter] in *.
    cbn [length]. repeat split; try congruence; try lia.
    intros Hfresh Htwo. rewrite Hsc2 by assumption. now apply Hsc.
Qed.

End SuccessiveRuns.

Definition parsed_program (args : list string) (dir : directory)
  : result (Z * string) :=
  Ok (0%Z, "energy 1"%string).

Definition working : collaborators R :=
  {| program := parsed_program;
     parser_funcs := fun calc =>
       if String.eqb calc "energy" then Some energy_parser else None;
     exn_text := fun _ => ""%string |}.

Lemma successful_runs_witness :
  calc_counter
    (snd (fst (run_all working fresh_dir idle empty_world
                 [("geom", "energy", []); ("geom2", "energy", [])]%string)))
  = 2%Z.
Proof.
  apply (successful_runs working fresh_dir
           [("geom", "energy", []); ("geom2", "energy", [])]%string
           idle _ empty_world
           (snd (run_all working fresh_dir idle empty_world
                   [("geom", "energy", []); ("geom2", "energy", [])]%string))
           [1; 1]).
  reflexivity.
Defined.

End CalculatorMore.

(** ** SimpleZTS: the weights, the unit of the energy and small chains *)

Module SimpleZTSMore.

Import Py Np SimpleZTS PyFacts SimpleZTSFacts.

Lemma weight_function_value (means : vec) (weights : vec) :
  weight_function means = Ok weights ->
  exists M, amax (map Rabs means) = Ok M /\
            weights = map (fun e => sqrt (Rabs e / M)) means.
Proof.
  unfold weight_function.
  destruct (amax (map Rabs means)) as [M|e] eqn:HM; [|discriminate].
  cbn [bind]. intros [= <-]. exists M. split; [reflexivity|].
  unfold div_scalar. now rewrite !map_map.
Qed.

(** X18. [weight_function] raises [ValueError] on an empty list of mean
    energies.  On mean energies that are not all zero it returns one weight
    per mean energy, each between 0 and 1, and the weight 1 for a mean energy
    of the largest absolute value. *)
Theorem weight_function_range (means : vec) :
  weight_function [] = Raise ValueError /\
  (Exists (fun e => e <> 0) means ->
   exists weights,
     weight_function means = Ok weights /\
     length weights = length means /\
     Forall (fun x => 0 <= x <= 1) weights /\
     (forall k e,
         nth_error means k = Some e ->
         (forall e', In e' means -> Rabs e' <= Rabs e) ->
         nth_error weights k = Some 1)).
Proof.
  split; [reflexivity|]. intros Hex.
  destruct (amax (map Rabs means)) as [M|err] eqn:HM.
  2:{ destruct means; [inversion Hex|discriminate]. }
  pose proof (amax_spec _ _ HM) as (Hin & Hub).
  assert (HMpos : 0 < M).
  { apply Exists_exists in Hex. destruct Hex as (e & He & Hne).
    pose proof (Rabs_pos_lt e Hne).
    assert (Rabs e <= M) by (apply Hub, in_map, He). lra. }
  exists (map (fun e => sqrt (Rabs e / M)) means).
  split; [|split; [apply length_map|split]].
  - unfold weight_function. rewrite HM. cbn [bind].
    unfold div_scalar. now rewrite !map_map.
  - apply Forall_map, Forall_forall. intros e He.
    assert (Hle : Rabs e <= M) by (apply Hub, in_map, He).
    pose proof (Rabs_pos e) as H0.
    assert (Hq : 0 <= Rabs e / M <= 1).
    { split.
      - apply Rmult_le_pos; [exact H0|]. left. now apply Rinv_0_lt_compat.
      - apply (Rmult_le_reg_r M); [exact HMpos|].
        unfold Rdiv. rewrite Rmult_assoc, Rinv_l by lra. lra. }
    split; [apply sqrt_pos|].
    rewrite <- sqrt_1. apply sqrt_le_1_alt. tauto.
  - intros k e Hk Hmax. rewrite nth_error_map, Hk. cbn [option_map].
    do 2 f_equal.
    assert (E : Rabs e = M).
    { apply Rle_antisym.
      - apply Hub, in_map. now apply nth_error_In in Hk.
      - apply in_map_iff in Hin. destruct Hin as (e' & <- & He').
        now apply Hmax. }
    rewrite E. unfold Rdiv. rewrite Rinv_r by lra. apply sqrt_1.
Qed.

Lemma weight_function_range_witness :
  exists weights,
    weight_function [1; - 4] = Ok weights /\
    length weights = 2%nat /\
    Forall (fun x => 0 <= x <= 1) weights /\
    (forall k e,
        nth_error [1; - 4] k = Some e ->
        (forall e', In e' [1; - 4] -> Rabs e' <= Rabs e) ->
        nth_error weights k = Some 1).
Proof.
  apply (proj2 (weight_function_range [1; - 4])).
  left. lra.
Defined.

Definition fmap {A B : Type} (h : A -> B) (r : result A) : result B :=
  match r with
  | Ok a => Ok (h a)
  | Raise e => Raise e
  end.

Lemma comprehension_fmap {A B : Type} (f f' : A -> result B) (h : B -> B)
  (l : list A) :
  (forall a, f' a = fmap h (f a)) ->
  comprehension f' l = fmap (map h) (comprehension f l).
Proof.
  intros H. induction l as [|a l IH]; cbn [comprehension]; [reflexivity|].
  rewrite H, IH. destruct (f a); cbn [fmap]; [|reflexivity].
  now destruct (comprehension f l).
Qed.

Lemma amax_scaled (k : R) (l : vec) :
  0 <= k -> amax (map (fun x => k * x) l) = fmap (fun M => k * M) (amax l).
Proof.
  intros Hk. destruct (amax l) as [M|e] eqn:HM.
  - cbn [fmap]. apply amax_spec in HM. destruct HM as (Hin & Hub).
    apply amax_is.
    + now apply (in_map (fun x => k * x)).
    + intros y Hy. apply in_map_iff in Hy. destruct Hy as (x & <- & Hx).
      apply Rmult_le_compat_l; [exact Hk|now apply Hub].
  - destruct l; [|discriminate]. cbn in HM. injection HM as <-. reflexivity.
Qed.

Lemma weight_function_scaled (k : R) (means : vec) :
  k <> 0 ->
  weight_function (map (fun e => k * e) means) = weight_function means.
Proof.
  intros Hk. unfold weight_function.
  assert (E : map Rabs (map (fun e => k * e) means)
              = map (fun x => Rabs k * x) (map Rabs means)).
  { rewrite !map_map. apply map_ext. intros e. apply Rabs_mult. }
  rewrite E, amax_scaled by apply Rabs_pos.
  destruct (amax (map Rabs means)) as [M|e]; cbn [fmap bind]; [|reflexivity].
  f_equal. unfold div_scalar. rewrite !map_map. apply map_ext. intros e.
  f_equal. unfold Rdiv. rewrite Rinv_mult.
  assert (Rabs k <> 0) by now apply Rabs_no_R0.
  generalize (/ M). intros iM. field. assumption.
Qed.

Section EnergyUnit.

Variable energy : vec -> R.
Variable tck : Type.
Variable splprep : list vec -> option vec -> result (tck * vec).
Variable splev : vec -> tck -> list vec.

Lemma mean_energies_scaled (k : R) (z : chain) :
  mean_energies (fun img => k * energy img) z
  = fmap (map (fun e => k * e)) (mean_energies energy z).
Proof.
  unfold mean_energies. apply comprehension_fmap. intros i.
  rewrite <- (map_map energy (fun e => k * e)).
  rewrite !(PrimitiveFacts.index_map (fun e => k * e)).
  destruct (index (map energy (images z)) i) as [ei|]; cbn [bind fmap];
    [|reflexivity].
  destruct (index (map energy (images z)) (i - 1)) as [ej|]; cbn [bind fmap];
    [|reflexivity].
  f_equal. lra.
Qed.

(** X19. Multiplying every energy by the same non-zero factor, a change of
    unit or of sign, changes neither the parameters of the energy-weighted
    mode nor the result of [reparametrize]. *)
Theorem energy_unit_irrelevant (k : R) (z : chain) :
  k <> 0 ->
  arc_segments (fun img => k * energy img) z = arc_segments energy z /\
  reparametrize (fun img => k * energy img) tck splprep splev z
  = reparametrize energy tck splprep splev z.
Proof.
  intros Hk.
  assert (Harc : arc_segments (fun img => k * energy img) z
                 = arc_segments energy z).
  { unfold arc_segments. rewrite mean_energies_scaled.
    destruct (mean_energies energy z) as [means|e]; cbn [fmap bind];
      [|reflexivity].
    now rewrite weight_function_scaled. }
  split; [exact Harc|].
  unfold reparametrize, fit. now rewrite Harc.
Qed.

(** X20. Unless the mode is "energy", [reparametrize] does not look at the
    energies: any two energy functions give the same result. *)
Theorem other_modes_ignore_energy (energy' : vec -> R) (z : chain) :
  param z <> "energy"%string ->
  reparametrize energy tck splprep splev z
  = reparametrize energy' tck splprep splev z.
Proof.
  intros H. apply String.eqb_neq in H. unfold reparametrize, fit.
  now rewrite H.
Qed.

(** X21. In energy mode a chain of a single image makes [reparametrize]
    raise [ValueError], whatever the spline routines do: there is no segment
    whose mean energy could be the maximum (or, for an image without
    coordinates, nothing to reshape). *)
Theorem single_image_energy_mode (img : vec) :
  reparametrize energy tck splprep splev
    {| param := "energy"; images := [img] |}
  = Raise ValueError.
Proof.
  unfold reparametrize, coords, coords_length, flatten. cbn [images concat].
  rewrite app_nil_r. unfold reshape.
  destruct (Nat.eqb (length img) 0) eqn:E; [reflexivity|].
  rewrite Nat.Div0.mod_same. cbn [Nat.eqb bind].
  unfold fit. cbn [param String.eqb Ascii.eqb Bool.eqb].
  reflexivity.
Qed.

End EnergyUnit.

Lemma energy_unit_irrelevant_witness :
  arc_segments (fun img => - (1) * flat_energy img) two_images
  = arc_segments flat_energy two_images.
Proof.
  apply (energy_unit_irrelevant flat_energy table table_splprep table_splev
           (- (1)) two_images).
  lra.
Defined.

Lemma other_modes_ignore_energy_witness :
  reparametrize flat_energy table table_splprep table_splev
    (four_images "equal")
  = reparametrize (fun img => 0) table table_splprep table_splev
      (four_images "equal").
Proof.
  apply (other_modes_ignore_energy flat_energy table table_splprep table_splev
           (fun img => 0) (four_images "equal")).
  discriminate.
Defined.

End SimpleZTSMore.

(** ** testing: what the cache remembers *)

Module TestingFacts.

Import Py Testing.

Lemma cache_get_head (key : string) (m : mark) (c : cache) :
  cache_get key ((key, m) :: c) = Some m.
Proof. unfold cache_get. cbn [find fst]. now rewrite String.eqb_refl. Qed.

Lemma cache_get_other (key key' : string) (m : mark) (c : cache) :
  key <> key' -> cache_get key ((key', m) :: c) = cache_get key c.
Proof.
  intros H. unfold cache_get. cbn [find fst].
  destruct (String.eqb_spec key' key); [congruence|reflexivity].
Qed.

(** X22. A second request for a calculator, in any spelling that differs
    only in case and whatever the configuration has become meanwhile, returns
    the mark of the first request and leaves the cache as it is; a request
    never changes what the cache holds for other names. *)
Theorem using_is_cached (env env' : environment) (c : cache)
  (calculator calculator' : string) :
  Primitive.lower calculator' = Primitive.lower calculator ->
  using_ env' (snd (using_ env c calculator)) calculator'
  = using_ env c calculator /\
  (forall key, key <> Primitive.lower calculator ->
               cache_get key (snd (using_ env c calculator)) = cache_get key c).
Proof.
  intros Hl. unfold using_. rewrite Hl.
  destruct (cache_get (Primitive.lower calculator) c) as [m|] eqn:E;
    cbn [snd].
  - rewrite E. split; [reflexivity|]. reflexivity.
  - rewrite cache_get_head. split; [reflexivity|].
    intros key Hk. now apply cache_get_other.
Qed.

Definition no_programs : environment :=
  {| Config := fun _ => None; which := fun _ => None;
     pyscf_importable := true |}.

Lemma using_is_cached_witness :
  using_ no_programs (snd (using_ no_programs [] "PySCF")) "pyscf"
  = using_ no_programs [] "PySCF".
Proof.
  apply (using_is_cached no_programs no_programs [] "PySCF" "pyscf").
  reflexivity.
Defined.

(** X23. For a name not yet in the cache the new mark lets the test run
    exactly when the configured command of the lower-cased name is found on
    the path, or the name is "pyscf" and the module can be imported; a
    missing section or a missing [cmd] option counts as not available. *)
Theorem using_availability (env : environment) (c : cache)
  (calculator : string) :
  cache_get (Primitive.lower calculator) c = None ->
  (skip (fst (using_ env c calculator)) = false <->
   (exists section cmd path,
       Config env (Primitive.lower calculator) = Some section /\
       section "cmd"%string = Some cmd /\ which env cmd = Some path) \/
   (Primitive.lower calculator = "pyscf"%string /\
    pyscf_importable env = true)) /\
  reason (fst (using_ env c calculator))
  = ("Calculator " ++ Primitive.lower calculator ++ " is not available.")%string.
Proof.
  intros Hc. unfold using_. rewrite Hc. cbn [fst skip reason].
  split; [|reflexivity].
  set (k := Primitive.lower calculator).
  assert (Hfound : match command_found env k with
                   | Ok found => found
                   | Raise _ => false
                   end = true <->
                   exists section cmd path,
                     Config env k = Some section /\
                     section "cmd"%string = Some cmd /\
                     which env cmd = Some path).
  { unfold command_found.
    destruct (Config env k) as [section|].
    - destruct (section "cmd"%string) as [cmd|] eqn:Ecmd.
      + destruct (which env cmd) as [path|] eqn:Ew.
        * split; [intros _; exists section, cmd, path; now repeat split
                 |intros _; reflexivity].
        * split; [discriminate|].
          intros (s' & cmd' & path & [= <-] & Hcmd & Hw). congruence.
      + split; [discriminate|].
        intros (s' & cmd' & path & [= <-] & Hcmd & _). congruence.
    - split; [discriminate|]. intros (s' & cmd' & path & Hs & _). discriminate. }
  rewrite negb_false_iff.
  destruct (String.eqb_spec k "pyscf") as [Ek|Ek].
  - destruct (pyscf_importable env).
    + split; [intros _; right; now split|intros _; reflexivity].
    + rewrite Hfound. split; [intros H; now left|].
      intros [H|(_ & H)]; [exact H|discriminate].
  - rewrite Hfound. split; [intros H; now left|].
    intros [H|(H & _)]; [exact H|contradiction].
Qed.

Lemma using_availability_witness :
  reason (fst (using_ no_programs [] "ORCA"))
  = "Calculator orca is not available."%string.
Proof.
  apply (using_availability no_programs [] "ORCA"). reflexivity.
Defined.

End TestingFacts.

(** ** run: what a calculator closure passes on, and the registry *)

Module RunFacts.

Import Py Run.

Local Open Scope string_scope.

Lemma prefix_empty (s : string) : String.prefix "" s = true.
Proof. now destruct s. Qed.

Lemma no_dollar_head (ch : ascii) (s : string) :
  contains "$" (String ch s) = false ->
  ch <> "$"%char /\ contains "$" s = false.
Proof.
  cbn [contains String.prefix]. intros H. apply orb_false_iff in H.
  destruct H as (Hp & Hc). split; [|exact Hc].
  intros ->. cbn in Hp. rewrite prefix_empty in Hp. discriminate.
Qed.

Lemma prefix_at_match (b : string) :
  String.prefix "$IMAGE" ("$IMAGE" ++ b) = true.
Proof. cbn. apply prefix_empty. Qed.

Lemma replace_at_match (new b : string) :
  replace_IMAGE new ("$IMAGE" ++ b) = new ++ replace_IMAGE new b.
Proof.
  unfold replace_IMAGE. cbn. now rewrite prefix_empty.
Qed.

Lemma replace_no_dollar (new a : string) :
  contains "$" a = false ->
  forall rest, replace_IMAGE new (a ++ rest) = a ++ replace_IMAGE new rest.
Proof.
  intros Ha rest. induction a as [|ch a IH]; [reflexivity|].
  apply no_dollar_head in Ha. destruct Ha as (Hch & Ha).
  unfold replace_IMAGE in *. cbn [append replace_from String.prefix].
  destruct (ascii_dec "$" ch) as [E|_]; [congruence|].
  cbn [andb]. now rewrite IH.
Qed.

Lemma contains_app (pattern a s : string) :
  String.prefix pattern s = true -> contains pattern (a ++ s) = true.
Proof.
  intros H. induction a as [|ch a IH].
  - cbn [append]. destruct s; cbn [contains]; now rewrite H.
  - cbn [append contains]. rewrite IH. apply orb_true_r.
Qed.

Lemma append_empty_r (s : string) : s ++ "" = s.
Proof. induction s as [|ch s IH]; cbn; [reflexivity|now rewrite IH]. Qed.

Section ClosureFacts.

Variable other : Type.
Variable calculator : Type.
Variable CALC_DICT : string -> option (kwargs other -> result calculator).

Lemma getitem_setitem_same (key : string) (v : value other)
  (d : kwargs other) :
  getitem other key (setitem other key v d) = Some v.
Proof.
  unfold getitem. induction d as [|[k v'] d IH]; cbn [setitem find fst].
  - now rewrite String.eqb_refl.
  - destruct (String.eqb k key) eqn:E; cbn [find fst]; rewrite E;
      [reflexivity|exact IH].
Qed.

Lemma getitem_setitem_other (key key' : string) (v : value other)
  (d : kwargs other) :
  key <> key' ->
  getitem other key (setitem other key' v d) = getitem other key d.
Proof.
  intros Hne. unfold getitem.
  induction d as [|[k v'] d IH]; cbn [setitem find fst].
  - destruct (String.eqb_spec key' key); [congruence|reflexivity].
  - destruct (String.eqb_spec k key') as [->|E]; cbn [find fst].
    + destruct (String.eqb_spec key' key); [congruence|reflexivity].
    + destruct (String.eqb k key); [reflexivity|exact IH].
Qed.

Lemma getitem_map (f : value other -> value other) (key : string)
  (d : kwargs other) :
  getitem other key (map (fun e => (fst e, f (snd e))) d)
  = option_map f (getitem other key d).
Proof.
  unfold getitem. induction d as [|[k v] d IH]; cbn [map find fst snd];
    [reflexivity|].
  destruct (String.eqb k key); [reflexivity|exact IH].
Qed.

(** X24. A call of the closure with counter [index] advances the counter by
    one, also when the calculator key is unknown and the call raises
    [KeyError]; the class of a known key is called with keyword arguments in
    which [calc_number] is [index] and [base_name] the name given to
    [get_calc_closure], whatever the configured arguments say for them, and
    every other argument is the configured one after the expansion of
    [$IMAGE]. *)
Theorem calc_getter_arguments (base_name calc_key : string)
  (calc_kwargs : kwargs other) (index : Z) :
  snd (calc_getter other calculator CALC_DICT base_name calc_key calc_kwargs
         index) = (index + 1)%Z /\
  (CALC_DICT calc_key = None ->
   fst (calc_getter other calculator CALC_DICT base_name calc_key calc_kwargs
          index) = Raise KeyError) /\
  (forall cls,
      CALC_DICT calc_key = Some cls ->
      exists passed,
        fst (calc_getter other calculator CALC_DICT base_name calc_key
               calc_kwargs index) = cls passed /\
        getitem other "calc_number" passed = Some (VInt other index) /\
        getitem other "base_name" passed = Some (VStr other base_name) /\
        (forall key, key <> "calc_number" -> key <> "base_name" ->
                     getitem other key passed
                     = option_map (expand other index)
                         (getitem other key calc_kwargs))).
Proof.
  unfold calc_getter. cbv zeta. split; [|split].
  - now destruct (CALC_DICT calc_key).
  - now intros ->.
  - intros cls ->. eexists. split; [reflexivity|].
    split; [apply getitem_setitem_same|]. split.
    + rewrite getitem_setitem_other by discriminate.
      apply getitem_setitem_same.
    + intros key H1 H2. rewrite !getitem_setitem_other by assumption.
      apply getitem_map.
Qed.

(** X25. [$IMAGE] is expanded to the counter written with at least three
    digits: in a string whose text before the first [$IMAGE] has no dollar
    sign that occurrence is replaced and the expansion goes on behind it; a
    string without a dollar sign and a value that is not a string are passed
    on unchanged. *)
Theorem image_pattern_expansion (index : Z) (a b : string) :
  contains "$" a = false ->
  expand other index (VStr other (a ++ "$IMAGE" ++ b))
  = VStr other (a ++ CalculatorSetup.format_03d index
                  ++ replace_IMAGE (CalculatorSetup.format_03d index) b) /\
  expand other index (VStr other a) = VStr other a /\
  replace_IMAGE (CalculatorSetup.format_03d index) a = a /\
  (forall n, expand other index (VInt other n) = VInt other n) /\
  (forall o, expand other index (VOther other o) = VOther other o).
Proof.
  intros Ha. repeat split.
  - unfold expand. rewrite contains_app by apply prefix_at_match.
    cbn [negb].
    now rewrite replace_no_dollar, replace_at_match.
  - unfold expand. destruct (contains "$IMAGE" a) eqn:E; [|reflexivity].
    cbn [negb]. f_equal.
    rewrite <- (append_empty_r a) at 1.
    now rewrite replace_no_dollar, append_empty_r.
  - rewrite <- (append_empty_r a) at 1.
    now rewrite replace_no_dollar, append_empty_r.
Qed.

End ClosureFacts.

Lemma image_pattern_expansion_witness :
  expand unit 7 (VStr unit ("calc_" ++ "$IMAGE" ++ ".out"))
  = VStr unit ("calc_" ++ "007" ++ ".out").
Proof.
  apply (image_pattern_expansion unit 7 "calc_" ".out"). reflexivity.
Defined.

(** X26. [get_opt_cls] returns a class exactly for the keys of [OPT_DICT]
    and [TSOPT_DICT], the class registered under the key, and raises
    [KeyError] for every other key; no key occurs in both tables, so the
    order of the two look-ups decides nothing. *)
Theorem get_opt_cls_registry (opt_key : string) :
  NoDup (map fst (OPT_DICT ++ TSOPT_DICT)) /\
  (forall cls, get_opt_cls opt_key = Ok cls <->
               In (opt_key, cls) (OPT_DICT ++ TSOPT_DICT)) /\
  (~ In opt_key (map fst (OPT_DICT ++ TSOPT_DICT)) ->
   get_opt_cls opt_key = Raise KeyError).
Proof.
  assert (Hnd : NoDup (map fst (OPT_DICT ++ TSOPT_DICT))).
  { cbn. repeat (constructor; [cbn; intuition discriminate|]). constructor. }
  assert (Hin : forall cls, In (opt_key, cls) (OPT_DICT ++ TSOPT_DICT) ->
                            get_opt_cls opt_key = Ok cls).
  { intros cls H. cbn in H.
    repeat (destruct H as [[= <- <-]|H]; [reflexivity|]). contradiction. }
  assert (Hfind : forall d r, lookup opt_key d = r ->
                    match r with
                    | Ok cls => In (opt_key, cls) d
                    | Raise e => e = KeyError /\ ~ In opt_key (map fst d)
                    end).
  { intros d r <-. unfold lookup.
    destruct (find (fun e => String.eqb (fst e) opt_key) d) as [[k cls]|] eqn:E.
    - apply find_some in E. destruct E as (Hd & Hk).
      apply String.eqb_eq in Hk. cbn in Hk. now subst.
    - split; [reflexivity|]. intros Hk. apply in_map_iff in Hk.
      destruct Hk as ([k cls] & <- & Hd).
      pose proof (find_none _ _ E _ Hd) as Hf. cbn in Hf.
      rewrite String.eqb_refl in Hf. discriminate. }
  split; [exact Hnd|]. split.
  - intros cls. split; [|apply Hin].
    unfold get_opt_cls. intros H. apply in_or_app.
    pose proof (Hfind OPT_DICT _ eq_refl) as H1.
    destruct (lookup opt_key OPT_DICT) as [c1|e1].
    + injection H as <-. now left.
    + destruct H1 as (-> & _).
      pose proof (Hfind TSOPT_DICT _ eq_refl) as H2.
      rewrite H in H2. now right.
  - intros Hno. unfold get_opt_cls.
    pose proof (Hfind OPT_DICT _ eq_refl) as H1.
    destruct (lookup opt_key OPT_DICT) as [c1|e1].
    + exfalso. apply Hno. rewrite map_app. apply in_or_app. left.
      now apply (in_map fst) in H1.
    + destruct H1 as (-> & _).
      pose proof (Hfind TSOPT_DICT _ eq_refl) as H2.
      destruct (lookup opt_key TSOPT_DICT) as [c2|e2].
      * exfalso. apply Hno. rewrite map_app. apply in_or_app. right.
        now apply (in_map fst) in H2.
      * now destruct H2 as (-> & _).
Qed.

End RunFacts.

(** ** Calculator: what [keep] keeps *)

Module CalculatorKeepFacts.

Import Py Calculator CalculatorSetup CalculatorKeep.

Local Open Scope string_scope.

Section KeepFacts.

Variable abspath_of : string -> string.
Variable glob : directory -> string -> list string.
Variable c : calculator.
Variable dir : directory.

(** The name under which a file with the given extension is kept. *)
Definition kept_name (ext : string) : string :=
  abspath_of (make_fn abspath_of c ext None false).

Lemma dict_get_set_same (key v : string) (d : list (string * string)) :
  dict_get key (dict_set key v d) = Some v.
Proof.
  unfold dict_get. induction d as [|[k v'] d IH]; cbn [dict_set find fst].
  - now rewrite String.eqb_refl.
  - destruct (String.eqb k key) eqn:E; cbn [find fst]; rewrite E;
      [reflexivity|exact IH].
Qed.

Lemma dict_get_set_other (key key' v : string) (d : list (string * string)) :
  key <> key' -> dict_get key (dict_set key' v d) = dict_get key d.
Proof.
  intros Hne. unfold dict_get.
  induction d as [|[k v'] d IH]; cbn [dict_set find fst].
  - destruct (String.eqb_spec key' key); [congruence|reflexivity].
  - destruct (String.eqb_spec k key') as [->|E]; cbn [find fst].
    + destruct (String.eqb_spec key' key); [congruence|reflexivity].
    + destruct (String.eqb k key); [reflexivity|exact IH].
Qed.

Hypothesis glob_sound :
  forall pattern fn, In fn (glob dir pattern) -> dict_get fn dir <> None.

Lemma keep_loop_ok (exts : list string) :
  forall kept_fns files,
    (forall ext, In ext exts -> (length (glob dir ("*" ++ ext)) <= 1)%nat) ->
    exists kept files',
      keep_loop abspath_of glob c dir exts kept_fns files = (Ok kept, files') /\
      (forall ext,
          dict_get ext kept
          = if in_dec string_dec ext exts
            then match glob dir ("*" ++ ext) with
                 | [] => dict_get ext kept_fns
                 | _ :: _ => Some (kept_name ext)
                 end
            else dict_get ext kept_fns).
Proof.
  induction exts as [|ext0 exts IH]; intros kept_fns files Hle.
  - exists kept_fns, files. split; [reflexivity|]. intros ext. reflexivity.
  - cbn [keep_loop].
    assert (Hle0 : (length (glob dir ("*" ++ ext0)) <= 1)%nat)
      by (apply Hle; now left).
    apply Nat.leb_le in Hle0. rewrite Hle0.
    assert (Hle' : forall ext, In ext exts ->
                     (length (glob dir ("*" ++ ext)) <= 1)%nat)
      by (intros ext He; apply Hle; now right).
    destruct (glob dir ("*" ++ ext0)) as [|old_fn rest] eqn:Eg.
    + destruct (IH kept_fns files Hle') as (kept & files' & Hk & Hget).
      exists kept, files'. split; [exact Hk|]. intros ext. rewrite Hget.
      destruct (in_dec string_dec ext exts) as [Hi|Hn];
        destruct (in_dec string_dec ext (ext0 :: exts)) as [Hi'|Hn'];
        try reflexivity.
      * exfalso. apply Hn'. now right.
      * destruct Hi' as [<-|Hi']; [|contradiction]. now rewrite Eg.
    + unfold copy.
      destruct (dict_get old_fn dir) as [content|] eqn:Ec.
      2:{ exfalso. apply (glob_sound ("*" ++ ext0) old_fn); [|exact Ec].
          rewrite Eg. now left. }
      fold (kept_name ext0).
      destruct (IH (dict_set ext0 (kept_name ext0) kept_fns)
                  (dict_set (kept_name ext0) content files) Hle')
        as (kept & files' & Hk & Hget).
      exists kept, files'. split; [exact Hk|]. intros ext. rewrite Hget.
      destruct (string_dec ext ext0) as [->|Hne].
      * rewrite dict_get_set_same, Eg.
        destruct (in_dec string_dec ext0 exts);
          destruct (in_dec string_dec ext0 (ext0 :: exts)) as [_|Hn'];
          try reflexivity; exfalso; apply Hn'; now left.
      * rewrite dict_get_set_other by exact Hne.
        destruct (in_dec string_dec ext exts) as [Hi|Hn];
          destruct (in_dec string_dec ext (ext0 :: exts)) as [Hi'|Hn'];
          try reflexivity.
        -- exfalso. apply Hn'. now right.
        -- destruct Hi' as [E|Hi']; [congruence|contradiction].
Qed.

Lemma keep_loop_asserts (exts : list string) :
  forall kept_fns files,
    (exists ext, In ext exts /\
                 (2 <= length (glob dir ("*" ++ ext)))%nat) ->
    fst (keep_loop abspath_of glob c dir exts kept_fns files)
    = Raise AssertionError.
Proof.
  induction exts as [|ext0 exts IH]; intros kept_fns files (ext & Hin & H2).
  - contradiction.
  - cbn [keep_loop].
    destruct (Nat.leb (length (glob dir ("*" ++ ext0))) 1) eqn:El;
      [|reflexivity].
    apply Nat.leb_le in El.
    assert (Hrest : exists ext, In ext exts /\
                      (2 <= length (glob dir ("*" ++ ext)))%nat).
    { destruct Hin as [<-|Hin]; [lia|]. now exists ext. }
    destruct (glob dir ("*" ++ ext0)) as [|old_fn rest] eqn:Eg.
    + now apply IH.
    + unfold copy.
      destruct (dict_get old_fn dir) as [content|] eqn:Ec.
      * now apply IH.
      * exfalso. apply (glob_sound ("*" ++ ext0) old_fn); [|exact Ec].
        rewrite Eg. now left.
Qed.

(** X27. With a [glob] that returns files of the scratch directory: when
    every extension to keep matches at most one file, [keep] returns a
    dictionary that maps exactly the extensions with a match to the absolute
    name [make_fn] gives them for the current counter; when some extension
    matches two or more files it raises [AssertionError]; with nothing to
    keep it returns the empty dictionary and writes nothing. *)
Theorem keep_outcome (to_keep0 : list string) (files : directory) :
  ((forall ext, In ext to_keep0 ->
                (length (glob dir ("*" ++ ext)) <= 1)%nat) ->
   exists kept files',
     keep abspath_of glob c to_keep0 dir files = (Ok kept, files') /\
     (forall ext fn,
         dict_get ext kept = Some fn <->
         In ext to_keep0 /\ glob dir ("*" ++ ext) <> [] /\
         fn = kept_name ext)) /\
  ((exists ext, In ext to_keep0 /\
                (2 <= length (glob dir ("*" ++ ext)))%nat) ->
   fst (keep abspath_of glob c to_keep0 dir files) = Raise AssertionError) /\
  keep abspath_of glob c [] dir files = (Ok [], files).
Proof.
  split; [|split; [apply keep_loop_asserts|reflexivity]].
  intros Hle. unfold keep.
  destruct (keep_loop_ok to_keep0 [] files Hle) as (kept & files' & Hk & Hget).
  exists kept, files'. split; [exact Hk|]. intros ext fn. rewrite Hget.
  destruct (in_dec string_dec ext to_keep0) as [Hi|Hn].
  - destruct (glob dir ("*" ++ ext)) as [|old_fn rest].
    + cbn. split; [discriminate|]. intros (_ & H & _). contradiction.
    + split.
      * intros [= <-]. repeat split; [exact Hi|discriminate].
      * intros (_ & _ & ->). reflexivity.
  - cbn. split; [discriminate|]. intros (H & _). contradiction.
Qed.

End KeepFacts.

Definition suffix_glob (dir : directory) (pattern : string) : list string :=
  if String.eqb pattern "*.out" then
    map fst (filter (fun f => String.eqb (fst f) "calc.out") dir)
  else [].

Lemma keep_outcome_witness :
  exists kept files',
    keep (fun fn => "/work/" ++ fn) suffix_glob CalculatorFacts.idle [".out"]
      [("calc.out", "energy 1"); ("calc.inp", "geom")] []
    = (Ok kept, files') /\
    (forall ext fn,
        dict_get ext kept = Some fn <->
        In ext [".out"] /\
        suffix_glob [("calc.out", "energy 1"); ("calc.inp", "geom")]
          ("*" ++ ext) <> [] /\
        fn = kept_name (fun fn => "/work/" ++ fn) CalculatorFacts.idle ext).
Proof.
  apply (proj1 (keep_outcome (fun fn => "/work/" ++ fn) suffix_glob
                  CalculatorFacts.idle
                  [("calc.out", "energy 1"); ("calc.inp", "geom")]
                  ltac:(intros pattern fn; unfold suffix_glob;
                        destruct (String.eqb pattern "*.out");
                        [intros [<-|[]]; discriminate|intros []])
                  [".out"] [])).
  intros ext [<-|[]]. cbn. lia.
Defined.

End CalculatorKeepFacts.
